(** * I/O performance data collection of the car watchdog daemon

    A shallow embedding of [watchdog/server/src/IoPerfCollection.cpp]:
    the percentage helper, the per-UID aggregation of process statistics,
    the bounded top-N scan, the collection cache, and the collection state
    machine driven by looper messages.  The text of the dumps ([toString],
    [dump], [dumpCollection]) and the parsing of dump arguments are not
    modelled.  Properties of the natural-language specification are stated
    and settled against these definitions. *)

From Stdlib Require Import ZArith List Bool String Lia SpecFloat DecimalString.
From Stdlib Require Import Sorting.Sorted Sorting.Permutation.
Import ListNotations.
Local Open Scope Z_scope.

(** ** Machine integers

    [uint32_t], [uint64_t] and [size_t] arithmetic wraps around.  Signed
    overflow ([nsecs_t] is [int64_t]) is undefined in C++; the model wraps
    it the way the target does, and statements about such sums carry the
    in-range condition explicitly. *)

Definition UINT32_MOD : Z := 2 ^ 32.
Definition UINT64_MOD : Z := 2 ^ 64.
Definition INT64_MAX : Z := 2 ^ 63 - 1.
Definition INT64_MIN : Z := - 2 ^ 63.

Definition u32 (z : Z) : Z := z mod UINT32_MOD.
Definition u64 (z : Z) : Z := z mod UINT64_MOD.
Definition i64 (z : Z) : Z := (z + 2 ^ 63) mod UINT64_MOD - 2 ^ 63.

(** [std::numeric_limits<std::size_t>::max()] on the 64-bit target. *)
Definition SIZE_MAX : Z := UINT64_MOD - 1.

(** ** IEEE 754 binary64, the C++ [double] *)

Definition dprec : Z := 53.
Definition demax : Z := 1024.

(** [static_cast<double>(n)] for an integer [n]: round to nearest even. *)
Definition double_of_Z (n : Z) : spec_float := binary_normalize dprec demax n 0 false.
Definition dmul : spec_float -> spec_float -> spec_float := SFmul dprec demax.
Definition ddiv : spec_float -> spec_float -> spec_float := SFdiv dprec demax.
Definition dzero : spec_float := S754_zero false.

(** The real value of a finite double as the pair (mantissa, exponent):
    the number [m * 2^e]; used to read results back as integers. *)
Definition double_is_integer (f : spec_float) (n : Z) : Prop :=
  match f with
  | S754_zero _ => n = 0
  | S754_finite s m e => e <= 0 /\ (if s then - Zpos m else Zpos m) = n * 2 ^ (- e)
  | _ => False
  end.

(** <<
    double percentage(uint64_t numer, uint64_t denom) {
        return denom == 0 ? 0.0 : (static_cast<double>(numer) / static_cast<double>(denom)) * 100.0;
    }
    >> *)
Definition percentage (numer denom : Z) : spec_float :=
  if denom =? 0 then dzero
  else dmul (ddiv (double_of_Z numer) (double_of_Z denom)) (double_of_Z 100).

(** ** Results and errors ([android::base::Result], [android::base::Error]) *)

Inductive StatusCode := NO_CODE | INVALID_OPERATION | FAILED_TRANSACTION.

Record Error := mkError { code : StatusCode; message : string }.

Inductive Result (A : Type) :=
| Ok (a : A)
| Err (e : Error).
Arguments Ok {A} a.
Arguments Err {A} e.

Definition isOk {A} (r : Result A) : bool :=
  match r with Ok _ => true | Err _ => false end.

(** ** Raw samples of the stat collectors

    [UidIoStats.h], [ProcStat.h] and [ProcPidStat.h] are used by the
    collection code through the members below. *)

Inductive UidState := FOREGROUND | BACKGROUND.
Inductive MetricType := READ_BYTES | WRITE_BYTES | FSYNC_COUNT.

(** [uint64_t metrics[METRIC_TYPES][UID_STATES]] *)
Record IoUsage := mkIoUsage {
  fgRdBytes : Z; bgRdBytes : Z;
  fgWrBytes : Z; bgWrBytes : Z;
  fgFsync : Z;   bgFsync : Z
}.

Definition metrics (io : IoUsage) (m : MetricType) (s : UidState) : Z :=
  match m, s with
  | READ_BYTES, FOREGROUND => fgRdBytes io
  | READ_BYTES, BACKGROUND => bgRdBytes io
  | WRITE_BYTES, FOREGROUND => fgWrBytes io
  | WRITE_BYTES, BACKGROUND => bgWrBytes io
  | FSYNC_COUNT, FOREGROUND => fgFsync io
  | FSYNC_COUNT, BACKGROUND => bgFsync io
  end.

(** Modelled from the spec: [IoUsage::sumReadBytes], [IoUsage::sumWriteBytes]
    and [IoUsage::isZero] are declared in [UidIoStats.h], which is not among
    the sources; they are the sum of a metric over both UID states and the
    test that every metric is zero ("nonzero activity"). *)
Definition sumReadBytes (io : IoUsage) : Z :=
  u64 (metrics io READ_BYTES FOREGROUND + metrics io READ_BYTES BACKGROUND).
Definition sumWriteBytes (io : IoUsage) : Z :=
  u64 (metrics io WRITE_BYTES FOREGROUND + metrics io WRITE_BYTES BACKGROUND).
Definition isZero (io : IoUsage) : bool :=
  (fgRdBytes io =? 0) && (bgRdBytes io =? 0) && (fgWrBytes io =? 0) &&
  (bgWrBytes io =? 0) && (fgFsync io =? 0) && (bgFsync io =? 0).

Definition zeroIoUsage : IoUsage := mkIoUsage 0 0 0 0 0 0.

Record UidIoUsage := mkUidIoUsage { uio_uid : Z; ios : IoUsage }.

Record ProcStatInfo := mkProcStatInfo {
  ioWaitTime : Z;
  totalCpuTime : Z;
  psi_ioBlockedProcessesCnt : Z;
  psi_totalProcessesCnt : Z
}.

Record PidStat := mkPidStat { state : string; pid_majorFaults : Z }.

(** [ProcessStats]: the signed uid, the top-level process and its threads
    (a map from tid to [PidStat], kept in iteration order). *)
Record ProcessStats := mkProcessStats {
  ps_uid : Z;
  process : PidStat;
  threads : list (Z * PidStat)
}.

(** ** Per-UID aggregation of process statistics *)

Record UidProcessStats := mkUidProcessStats {
  ups_uid : Z;
  ioBlockedTasksCnt : Z;
  totalTasksCnt : Z;
  majorFaults : Z
}.

Definition zeroUidProcessStats : UidProcessStats := mkUidProcessStats 0 0 0 0.

(** [std::unordered_map<uint32_t, T>] as an association list with unique
    keys, in iteration order. *)
Fixpoint mapFind {T} (k : Z) (m : list (Z * T)) : option T :=
  match m with
  | [] => None
  | (k', v) :: rest => if k' =? k then Some v else mapFind k rest
  end.

Fixpoint mapSet {T} (k : Z) (v : T) (m : list (Z * T)) : list (Z * T) :=
  match m with
  | [] => [(k, v)]
  | (k', v') :: rest => if k' =? k then (k, v) :: rest else (k', v') :: mapSet k v rest
  end.

Definition countIoBlocked (ths : list (Z * PidStat)) : Z :=
  fold_left (fun acc th => acc + (if String.eqb (state (snd th)) "D" then 1 else 0)) ths 0.

(** One iteration of the loop of [getUidProcessStats]. *)
Definition addProcessStats (m : list (Z * UidProcessStats)) (stats : ProcessStats)
  : list (Z * UidProcessStats) :=
  if ps_uid stats <? 0 then m
  else
    let uid := u32 (ps_uid stats) in
    let cur := match mapFind uid m with
               | Some c => c
               | None => mkUidProcessStats uid 0 0 0
               end in
    mapSet uid
      (mkUidProcessStats (ups_uid cur)
         (u32 (ioBlockedTasksCnt cur + countIoBlocked (threads stats)))
         (u32 (totalTasksCnt cur + Z.of_nat (List.length (threads stats))))
         (u64 (majorFaults cur + pid_majorFaults (process stats))))
      m.

Definition getUidProcessStats (processStats : list ProcessStats)
  : list (Z * UidProcessStats) :=
  fold_left addProcessStats processStats [].

(** ** The bounded top-N scan

    The four ranking loops of [collectUidIoPerfDataLocked] and
    [collectProcessIoPerfDataLocked] are the same scan over different
    keys:
    <<
    for (auto it = topN.begin(); it != topN.end(); ++it) {
        const T* top = *it;
        if (key(top) > key(cur)) { continue; }
        topN.erase(topN.end() - 1);
        topN.emplace(it, &cur);
        break;
    }
    >> *)
Fixpoint insertTopN {A} (key : A -> Z) (cur : A) (topN : list A) : list A :=
  match topN with
  | [] => []
  | x :: rest =>
      if key x >? key cur then x :: insertTopN key cur rest
      else cur :: removelast (x :: rest)
  end.

(** The output loops stop at the first placeholder:
    [for (const auto& e : topN) { if (stop(e)) break; out.emplace_back(...); }] *)
Fixpoint takeUntil {A} (stop : A -> bool) (l : list A) : list A :=
  match l with
  | [] => []
  | x :: rest => if stop x then [] else x :: takeUntil stop rest
  end.

(** ** Collection records *)

(** [UidIoPerfData::Stats]; [bytes] and [fsync] are indexed by UID state. *)
Record UidIoStat := mkUidIoStat {
  uis_userId : Z;
  uis_packageName : string;
  bytes : Z * Z;
  fsync : Z * Z
}.

Record UidIoPerfData := mkUidIoPerfData {
  total : IoUsage;
  topNReads : list UidIoStat;
  topNWrites : list UidIoStat
}.

Record SystemIoPerfData := mkSystemIoPerfData {
  cpuIoWaitTime : Z;
  sys_totalCpuTime : Z;
  ioBlockedProcessesCnt : Z;
  totalProcessesCnt : Z
}.

(** [ProcessIoPerfData::Stats] *)
Record ProcessStat := mkProcessStat {
  prs_userId : Z;
  prs_packageName : string;
  count : Z
}.

Record ProcessIoPerfData := mkProcessIoPerfData {
  topNIoBlockedUids : list ProcessStat;
  topNIoBlockedUidsTotalTaskCnt : list Z;
  topNMajorFaults : list ProcessStat;
  totalMajorFaults : Z;
  majorFaultsPercentChange : spec_float
}.

Record IoPerfRecord := mkIoPerfRecord {
  time : Z;
  uidIoPerfData : UidIoPerfData;
  systemIoPerfData : SystemIoPerfData;
  processIoPerfData : ProcessIoPerfData
}.

Definition emptyUidIoPerfData : UidIoPerfData := mkUidIoPerfData zeroIoUsage [] [].
Definition emptySystemIoPerfData : SystemIoPerfData := mkSystemIoPerfData 0 0 0 0.
Definition emptyProcessIoPerfData : ProcessIoPerfData :=
  mkProcessIoPerfData [] [] [] 0 dzero.

(** [CollectionInfo]: interval in nanoseconds, cache bound, uptime of the
    last collection, and the cache, oldest record first. *)
Record CollectionInfo := mkCollectionInfo {
  interval : Z;
  maxCacheSize : Z;
  lastCollectionUptime : Z;
  records : list IoPerfRecord
}.

(** The value-initialised [CollectionInfo{}]. *)
Definition emptyCollectionInfo : CollectionInfo := mkCollectionInfo 0 0 0 [].

(** ** Events and looper messages *)

Inductive CollectionEvent := INIT | BOOT_TIME | PERIODIC | CUSTOM | TERMINATED.
Inductive SwitchEvent := END_CUSTOM_COLLECTION.

(** [Message::what]: a collection event, a switch event, or any other
    integer. *)
Inductive Message :=
| Collect (e : CollectionEvent)
| Switch (s : SwitchEvent)
| Other (what : Z).

Definition CollectionEvent_eqb (a b : CollectionEvent) : bool :=
  match a, b with
  | INIT, INIT | BOOT_TIME, BOOT_TIME | PERIODIC, PERIODIC
  | CUSTOM, CUSTOM | TERMINATED, TERMINATED => true
  | _, _ => false
  end.

(** Modelled from the spec: [LooperWrapper.h] is not among the sources.
    The looper is the "message queue + delayed timers" of the scheduler:
    a monotonic clock, the pending messages ordered by due time, a count of
    [wake] calls and whether a looper was prepared for the thread. *)
Record LooperWrapper := mkLooper {
  now : Z;
  queue : list (Z * Message);
  wakes : nat;
  prepared : bool
}.

Fixpoint enqueue (uptime : Z) (m : Message) (q : list (Z * Message)) : list (Z * Message) :=
  match q with
  | [] => [(uptime, m)]
  | (t, m') :: rest =>
      if uptime <? t then (uptime, m) :: (t, m') :: rest
      else (t, m') :: enqueue uptime m rest
  end.

Definition sendMessageAtTime (uptime : Z) (m : Message) (l : LooperWrapper) : LooperWrapper :=
  mkLooper (now l) (enqueue uptime m (queue l)) (wakes l) (prepared l).
Definition sendMessage (m : Message) (l : LooperWrapper) : LooperWrapper :=
  sendMessageAtTime (now l) m l.
Definition removeMessages (l : LooperWrapper) : LooperWrapper :=
  mkLooper (now l) [] (wakes l) (prepared l).
Definition wake (l : LooperWrapper) : LooperWrapper :=
  mkLooper (now l) (queue l) (S (wakes l)) (prepared l).
Definition setLooper (l : LooperWrapper) : LooperWrapper :=
  mkLooper (now l) (queue l) (wakes l) true.

(** Modelled from the spec: the StatSource contract, [enabled() -> bool]
    and [collect() -> RawSample or Error].  The answers of the operating
    system are an oracle indexed by the number of reads made so far, so a
    read is observable in the state. *)
Record Collector (T : Type) := mkCollector {
  enabled : bool;
  answers : nat -> Result T;
  reads : nat
}.
Arguments mkCollector {T}.
Arguments enabled {T}.
Arguments answers {T}.
Arguments reads {T}.

Definition collect {T} (c : Collector T) : Result T * Collector T :=
  (answers c (reads c), mkCollector (enabled c) (answers c) (S (reads c))).

(** The name services behind [updateUidToPackageNameMapping]: [getpwuid]
    and the [package_native] binder service ([None] when the service
    cannot be retrieved). *)
Record NameServices := mkNameServices {
  getpwuid : Z -> option string;
  package_native : option (list Z -> Result (list string))
}.

(** ** The service state *)

Record State := mkState {
  mCurrCollectionEvent : CollectionEvent;
  mCollectionThreadJoinable : bool;
  mBoottimeCollection : CollectionInfo;
  mPeriodicCollection : CollectionInfo;
  mCustomCollection : CollectionInfo;
  mHandlerLooper : LooperWrapper;
  mUidIoStats : Collector (list (Z * UidIoUsage));
  mProcStat : Collector ProcStatInfo;
  mProcPidStat : Collector (list ProcessStats);
  mTopNStatsPerCategory : nat;
  mLastMajorFaults : Z;
  mUidToPackageNameMapping : list (Z * string);
  mPackageManager : bool;
  nameServices : NameServices;
  systemClock : Z
}.

Definition set_mCurrCollectionEvent (e : CollectionEvent) (s : State) : State :=
  mkState e (mCollectionThreadJoinable s) (mBoottimeCollection s) (mPeriodicCollection s)
    (mCustomCollection s) (mHandlerLooper s) (mUidIoStats s) (mProcStat s) (mProcPidStat s)
    (mTopNStatsPerCategory s) (mLastMajorFaults s) (mUidToPackageNameMapping s)
    (mPackageManager s) (nameServices s) (systemClock s).
Definition set_mCollectionThreadJoinable (b : bool) (s : State) : State :=
  mkState (mCurrCollectionEvent s) b (mBoottimeCollection s) (mPeriodicCollection s)
    (mCustomCollection s) (mHandlerLooper s) (mUidIoStats s) (mProcStat s) (mProcPidStat s)
    (mTopNStatsPerCategory s) (mLastMajorFaults s) (mUidToPackageNameMapping s)
    (mPackageManager s) (nameServices s) (systemClock s).
Definition set_mBoottimeCollection (c : CollectionInfo) (s : State) : State :=
  mkState (mCurrCollectionEvent s) (mCollectionThreadJoinable s) c (mPeriodicCollection s)
    (mCustomCollection s) (mHandlerLooper s) (mUidIoStats s) (mProcStat s) (mProcPidStat s)
    (mTopNStatsPerCategory s) (mLastMajorFaults s) (mUidToPackageNameMapping s)
    (mPackageManager s) (nameServices s) (systemClock s).
Definition set_mPeriodicCollection (c : CollectionInfo) (s : State) : State :=
  mkState (mCurrCollectionEvent s) (mCollectionThreadJoinable s) (mBoottimeCollection s) c
    (mCustomCollection s) (mHandlerLooper s) (mUidIoStats s) (mProcStat s) (mProcPidStat s)
    (mTopNStatsPerCategory s) (mLastMajorFaults s) (mUidToPackageNameMapping s)
    (mPackageManager s) (nameServices s) (systemClock s).
Definition set_mCustomCollection (c : CollectionInfo) (s : State) : State :=
  mkState (mCurrCollectionEvent s) (mCollectionThreadJoinable s) (mBoottimeCollection s)
    (mPeriodicCollection s) c (mHandlerLooper s) (mUidIoStats s) (mProcStat s) (mProcPidStat s)
    (mTopNStatsPerCategory s) (mLastMajorFaults s) (mUidToPackageNameMapping s)
    (mPackageManager s) (nameServices s) (systemClock s).
Definition set_mHandlerLooper (l : LooperWrapper) (s : State) : State :=
  mkState (mCurrCollectionEvent s) (mCollectionThreadJoinable s) (mBoottimeCollection s)
    (mPeriodicCollection s) (mCustomCollection s) l (mUidIoStats s) (mProcStat s)
    (mProcPidStat s) (mTopNStatsPerCategory s) (mLastMajorFaults s)
    (mUidToPackageNameMapping s) (mPackageManager s) (nameServices s) (systemClock s).
Definition set_mUidIoStats (c : Collector (list (Z * UidIoUsage))) (s : State) : State :=
  mkState (mCurrCollectionEvent s) (mCollectionThreadJoinable s) (mBoottimeCollection s)
    (mPeriodicCollection s) (mCustomCollection s) (mHandlerLooper s) c (mProcStat s)
    (mProcPidStat s) (mTopNStatsPerCategory s) (mLastMajorFaults s)
    (mUidToPackageNameMapping s) (mPackageManager s) (nameServices s) (systemClock s).
Definition set_mProcStat (c : Collector ProcStatInfo) (s : State) : State :=
  mkState (mCurrCollectionEvent s) (mCollectionThreadJoinable s) (mBoottimeCollection s)
    (mPeriodicCollection s) (mCustomCollection s) (mHandlerLooper s) (mUidIoStats s) c
    (mProcPidStat s) (mTopNStatsPerCategory s) (mLastMajorFaults s)
    (mUidToPackageNameMapping s) (mPackageManager s) (nameServices s) (systemClock s).
Definition set_mProcPidStat (c : Collector (list ProcessStats)) (s : State) : State :=
  mkState (mCurrCollectionEvent s) (mCollectionThreadJoinable s) (mBoottimeCollection s)
    (mPeriodicCollection s) (mCustomCollection s) (mHandlerLooper s) (mUidIoStats s)
    (mProcStat s) c (mTopNStatsPerCategory s) (mLastMajorFaults s)
    (mUidToPackageNameMapping s) (mPackageManager s) (nameServices s) (systemClock s).
Definition set_mLastMajorFaults (n : Z) (s : State) : State :=
  mkState (mCurrCollectionEvent s) (mCollectionThreadJoinable s) (mBoottimeCollection s)
    (mPeriodicCollection s) (mCustomCollection s) (mHandlerLooper s) (mUidIoStats s)
    (mProcStat s) (mProcPidStat s) (mTopNStatsPerCategory s) n
    (mUidToPackageNameMapping s) (mPackageManager s) (nameServices s) (systemClock s).
Definition set_mUidToPackageNameMapping (m : list (Z * string)) (s : State) : State :=
  mkState (mCurrCollectionEvent s) (mCollectionThreadJoinable s) (mBoottimeCollection s)
    (mPeriodicCollection s) (mCustomCollection s) (mHandlerLooper s) (mUidIoStats s)
    (mProcStat s) (mProcPidStat s) (mTopNStatsPerCategory s) (mLastMajorFaults s) m
    (mPackageManager s) (nameServices s) (systemClock s).
Definition set_mPackageManager (b : bool) (s : State) : State :=
  mkState (mCurrCollectionEvent s) (mCollectionThreadJoinable s) (mBoottimeCollection s)
    (mPeriodicCollection s) (mCustomCollection s) (mHandlerLooper s) (mUidIoStats s)
    (mProcStat s) (mProcPidStat s) (mTopNStatsPerCategory s) (mLastMajorFaults s)
    (mUidToPackageNameMapping s) b (nameServices s) (systemClock s).

(** A [CollectionInfo*] argument points at one of the three members. *)
Inductive InfoPtr := pBoottime | pPeriodic | pCustom.

Definition deref (p : InfoPtr) (s : State) : CollectionInfo :=
  match p with
  | pBoottime => mBoottimeCollection s
  | pPeriodic => mPeriodicCollection s
  | pCustom => mCustomCollection s
  end.

Definition assign (p : InfoPtr) (c : CollectionInfo) (s : State) : State :=
  match p with
  | pBoottime => set_mBoottimeCollection c s
  | pPeriodic => set_mPeriodicCollection c s
  | pCustom => set_mCustomCollection c s
  end.

(** ** A state-and-result monad for the member functions

    A member function may change the object before it fails, so the state
    is returned on both branches. *)
Definition M (A : Type) : Type := State -> Result A * State.

Definition ret {A} (a : A) : M A := fun s => (Ok a, s).
Definition fail {A} (e : Error) : M A := fun s => (Err e, s).
Definition bind {A B} (m : M A) (k : A -> M B) : M B :=
  fun s => match m s with
           | (Ok a, s') => k a s'
           | (Err e, s') => (Err e, s')
           end.
Definition gets {A} (f : State -> A) : M A := fun s => (Ok (f s), s).
Definition modify (f : State -> State) : M unit := fun s => (Ok tt, f s).

Declare Scope io_scope.
Delimit Scope io_scope with io.
Notation "x <- m ;; k" := (bind m (fun x => k))
  (at level 61, m at next level, right associativity) : io_scope.
Notation "m ;; k" := (bind m (fun _ => k))
  (at level 61, right associativity) : io_scope.

(** ** Platform constants used by the collection code *)

(** [AID_APP_START] and [AID_USER_OFFSET] of the Android platform headers;
    [multiuser_get_user_id(uid)] is [uid / AID_USER_OFFSET]. *)
Definition AID_APP_START : Z := 10000.
Definition AID_USER_OFFSET : Z := 100000.
Definition multiuser_get_user_id (uid : Z) : Z := uid / AID_USER_OFFSET.

(** [std::to_string] of an unsigned value. *)
Definition to_string (n : Z) : string := NilZero.string_of_uint (N.to_uint (Z.to_N n)).

Definition i32 (z : Z) : Z := (z + 2 ^ 31) mod UINT32_MOD - 2 ^ 31.

(** The constants of [IoPerfCollection.h], which is not among the sources:
    they are taken as parameters of the development. *)
Record Constants := mkConstants {
  kMinCollectionInterval : Z;
  kBoottimeCollectionInterval : Z;
  kPeriodicCollectionInterval : Z;
  kPeriodicCollectionBufferSize : Z
}.

(** Error texts keep the literal part of the message; the values streamed
    into it are left out. *)
Definition error (c : StatusCode) (msg : string) : Error := mkError c msg.

Definition mapErr {A} (f : Error -> Error) (m : M A) : M A :=
  fun s => match m s with
           | (Ok a, s') => (Ok a, s')
           | (Err e, s') => (Err (f e), s')
           end.

(** [const auto& ret = m; if (!ret) ALOGW(...)]: the error is only logged. *)
Definition logOnly (m : M unit) : M unit :=
  fun s => (Ok tt, snd (m s)).

(** [std::unordered_set<uint32_t>::insert], in insertion order. *)
Definition setInsert (k : Z) (s : list Z) : list Z :=
  if existsb (Z.eqb k) s then s else s ++ [k].

(** ** Package name resolution *)

Definition retrievePackageManager : M unit :=
  fun s => match package_native (nameServices s) with
           | None => (Err (error NO_CODE "Failed to get service package_native"), s)
           | Some _ => (Ok tt, set_mPackageManager true s)
           end.

(** First loop of [updateUidToPackageNameMapping]: application UIDs are
    set aside, native UIDs are named by [getpwuid]. *)
Definition splitUid (ns : NameServices) (acc : list Z * list (Z * string)) (uid : Z)
  : list Z * list (Z * string) :=
  if uid >=? AID_APP_START then (fst acc ++ [i32 uid], snd acc)
  else match getpwuid ns uid with
       | None => acc
       | Some name => (fst acc, mapSet uid name (snd acc))
       end.

(** Last loop: [if (!packageNames[i].empty()) mapping[appUids[i]] = packageNames[i]];
    the package manager answers with one name per UID. *)
Fixpoint storeNames (appUids : list Z) (packageNames : list string)
  (mapping : list (Z * string)) : list (Z * string) :=
  match appUids, packageNames with
  | uid :: us, name :: ns =>
      storeNames us ns
        (if String.eqb name EmptyString then mapping else mapSet (u32 uid) name mapping)
  | _, _ => mapping
  end.

Definition updateUidToPackageNameMapping (uids : list Z) : M unit :=
  (st <- gets (fun s => s) ;;
   let split := fold_left (splitUid (nameServices st)) uids
                  ([], mUidToPackageNameMapping st) in
   let appUids := fst split in
   modify (set_mUidToPackageNameMapping (snd split)) ;;
   match appUids with
   | [] => ret tt
   | _ :: _ =>
       (if mPackageManager st then ret tt
        else mapErr (fun e => error NO_CODE "Failed to retrieve package manager: ")
               retrievePackageManager) ;;
       match package_native (nameServices st) with
       | Some getNamesForUids =>
           match getNamesForUids appUids with
           | Ok packageNames =>
               modify (fun s => set_mUidToPackageNameMapping
                                  (storeNames appUids packageNames
                                     (mUidToPackageNameMapping s)) s)
           | Err _ => fail (error NO_CODE "package_native::getNamesForUids failed: ")
           end
       | None => fail (error NO_CODE "package_native::getNamesForUids failed: ")
       end
   end)%io.

Definition packageNameOf (mapping : list (Z * string)) (uid : Z) : string :=
  match mapFind uid mapping with
  | Some name => name
  | None => to_string uid
  end.

(** ** UID I/O collection *)

Definition addTotal (tot io : IoUsage) : IoUsage :=
  mkIoUsage (u64 (fgRdBytes tot + fgRdBytes io)) (u64 (bgRdBytes tot + bgRdBytes io))
            (u64 (fgWrBytes tot + fgWrBytes io)) (u64 (bgWrBytes tot + bgWrBytes io))
            (u64 (fgFsync tot + fgFsync io)) (u64 (bgFsync tot + bgFsync io)).

Definition readKey (u : UidIoUsage) : Z := sumReadBytes (ios u).
Definition writeKey (u : UidIoUsage) : Z := sumWriteBytes (ios u).

Definition tempUsage : UidIoUsage := mkUidIoUsage 0 zeroIoUsage.

(** The loop state of [collectUidIoPerfDataLocked]. *)
Record UidScan := mkUidScan {
  us_unmappedUids : list Z;
  us_total : IoUsage;
  us_topNReads : list UidIoUsage;
  us_topNWrites : list UidIoUsage
}.

Definition uidScanStep (mapping : list (Z * string)) (acc : UidScan)
  (uIt : Z * UidIoUsage) : UidScan :=
  let curUsage := snd uIt in
  if isZero (ios curUsage) then acc
  else
    mkUidScan
      (match mapFind (uio_uid curUsage) mapping with
       | None => setInsert (uio_uid curUsage) (us_unmappedUids acc)
       | Some _ => us_unmappedUids acc
       end)
      (addTotal (us_total acc) (ios curUsage))
      (insertTopN readKey curUsage (us_topNReads acc))
      (insertTopN writeKey curUsage (us_topNWrites acc)).

Definition uidScan (mapping : list (Z * string)) (n : nat)
  (usage : list (Z * UidIoUsage)) : UidScan :=
  fold_left (uidScanStep mapping) usage
    (mkUidScan [] zeroIoUsage (repeat tempUsage n) (repeat tempUsage n)).

Definition readStat (mapping : list (Z * string)) (u : UidIoUsage) : UidIoStat :=
  mkUidIoStat (multiuser_get_user_id (uio_uid u)) (packageNameOf mapping (uio_uid u))
    (metrics (ios u) READ_BYTES FOREGROUND, metrics (ios u) READ_BYTES BACKGROUND)
    (metrics (ios u) FSYNC_COUNT FOREGROUND, metrics (ios u) FSYNC_COUNT BACKGROUND).

Definition writeStat (mapping : list (Z * string)) (u : UidIoUsage) : UidIoStat :=
  mkUidIoStat (multiuser_get_user_id (uio_uid u)) (packageNameOf mapping (uio_uid u))
    (metrics (ios u) WRITE_BYTES FOREGROUND, metrics (ios u) WRITE_BYTES BACKGROUND)
    (metrics (ios u) FSYNC_COUNT FOREGROUND, metrics (ios u) FSYNC_COUNT BACKGROUND).

Definition usageIsZero (u : UidIoUsage) : bool := isZero (ios u).

(** The lists written to [UidIoPerfData]: the ranked candidates up to the
    first record whose [ios.isZero()] holds. *)
Definition reportedReads (scan : UidScan) : list UidIoUsage :=
  takeUntil usageIsZero (us_topNReads scan).
Definition reportedWrites (scan : UidScan) : list UidIoUsage :=
  takeUntil usageIsZero (us_topNWrites scan).

Definition collectUidIoPerfDataLocked : M UidIoPerfData :=
  (st <- gets (fun s => s) ;;
   if negb (enabled (mUidIoStats st)) then ret emptyUidIoPerfData
   else
     let (usage, c) := collect (mUidIoStats st) in
     modify (set_mUidIoStats c) ;;
     match usage with
     | Err e => fail (error NO_CODE "Failed to collect uid I/O usage: ")
     | Ok usage =>
         let scan := uidScan (mUidToPackageNameMapping st)
                       (mTopNStatsPerCategory st) usage in
         logOnly (updateUidToPackageNameMapping (us_unmappedUids scan)) ;;
         mapping <- gets mUidToPackageNameMapping ;;
         ret (mkUidIoPerfData (us_total scan)
                (map (readStat mapping) (reportedReads scan))
                (map (writeStat mapping) (reportedWrites scan)))
     end)%io.

(** ** System-wide and per-process collection *)

Definition collectSystemIoPerfDataLocked : M SystemIoPerfData :=
  (st <- gets (fun s => s) ;;
   if negb (enabled (mProcStat st)) then ret emptySystemIoPerfData
   else
     let (procStatInfo, c) := collect (mProcStat st) in
     modify (set_mProcStat c) ;;
     match procStatInfo with
     | Err e => fail (error NO_CODE "Failed to collect proc stats: ")
     | Ok info =>
         ret (mkSystemIoPerfData (ioWaitTime info) (totalCpuTime info)
                (psi_ioBlockedProcessesCnt info) (psi_totalProcessesCnt info))
     end)%io.

Definition temp : UidProcessStats := zeroUidProcessStats.

(** The loop state of [collectProcessIoPerfDataLocked]. *)
Record ProcessScan := mkProcessScan {
  ps_unmappedUids : list Z;
  ps_totalMajorFaults : Z;
  ps_topNIoBlockedUids : list UidProcessStats;
  ps_topNMajorFaults : list UidProcessStats
}.

Definition processScanStep (mapping : list (Z * string)) (acc : ProcessScan)
  (it : Z * UidProcessStats) : ProcessScan :=
  let curStats := snd it in
  mkProcessScan
    (match mapFind (ups_uid curStats) mapping with
     | None => setInsert (ups_uid curStats) (ps_unmappedUids acc)
     | Some _ => ps_unmappedUids acc
     end)
    (u64 (ps_totalMajorFaults acc + majorFaults curStats))
    (insertTopN ioBlockedTasksCnt curStats (ps_topNIoBlockedUids acc))
    (insertTopN majorFaults curStats (ps_topNMajorFaults acc)).

Definition processScan (mapping : list (Z * string)) (n : nat)
  (uidProcessStats : list (Z * UidProcessStats)) : ProcessScan :=
  fold_left (processScanStep mapping) uidProcessStats
    (mkProcessScan [] 0 (repeat temp n) (repeat temp n)).

Definition reportedIoBlocked (scan : ProcessScan) : list UidProcessStats :=
  takeUntil (fun s => ioBlockedTasksCnt s =? 0) (ps_topNIoBlockedUids scan).
Definition reportedMajorFaults (scan : ProcessScan) : list UidProcessStats :=
  takeUntil (fun s => majorFaults s =? 0) (ps_topNMajorFaults scan).

Definition ioBlockedStat (mapping : list (Z * string)) (s : UidProcessStats) : ProcessStat :=
  mkProcessStat (multiuser_get_user_id (ups_uid s)) (packageNameOf mapping (ups_uid s))
    (ioBlockedTasksCnt s).
Definition majorFaultsStat (mapping : list (Z * string)) (s : UidProcessStats) : ProcessStat :=
  mkProcessStat (multiuser_get_user_id (ups_uid s)) (packageNameOf mapping (ups_uid s))
    (majorFaults s).

(** [int64_t increase = total - last; (double(increase) / double(last)) * 100.0],
    and [0] while no previous total is known. *)
Definition percentChange (totalFaults lastFaults : Z) : spec_float :=
  if lastFaults =? 0 then dzero
  else dmul (ddiv (double_of_Z (i64 (totalFaults - lastFaults))) (double_of_Z lastFaults))
            (double_of_Z 100).

Definition collectProcessIoPerfDataLocked : M ProcessIoPerfData :=
  (st <- gets (fun s => s) ;;
   if negb (enabled (mProcPidStat st)) then ret emptyProcessIoPerfData
   else
     let (processStats, c) := collect (mProcPidStat st) in
     modify (set_mProcPidStat c) ;;
     match processStats with
     | Err e => fail (error NO_CODE "Failed to collect process stats: ")
     | Ok processStats =>
         let scan := processScan (mUidToPackageNameMapping st)
                       (mTopNStatsPerCategory st) (getUidProcessStats processStats) in
         logOnly (updateUidToPackageNameMapping (ps_unmappedUids scan)) ;;
         mapping <- gets mUidToPackageNameMapping ;;
         modify (set_mLastMajorFaults (ps_totalMajorFaults scan)) ;;
         ret (mkProcessIoPerfData
                (map (ioBlockedStat mapping) (reportedIoBlocked scan))
                (map totalTasksCnt (reportedIoBlocked scan))
                (map (majorFaultsStat mapping) (reportedMajorFaults scan))
                (ps_totalMajorFaults scan)
                (percentChange (ps_totalMajorFaults scan) (mLastMajorFaults st)))
     end)%io.

(** ** One collection pass and the cache *)

(** <<
    if (collectionInfo->records.size() > collectionInfo->maxCacheSize) {
        collectionInfo->records.erase(collectionInfo->records.begin());
    }
    collectionInfo->records.emplace_back(record);
    >> *)
Definition cacheRecord (record : IoPerfRecord) (info : CollectionInfo) : CollectionInfo :=
  let kept := if Z.of_nat (List.length (records info)) >? maxCacheSize info
              then tl (records info) else records info in
  mkCollectionInfo (interval info) (maxCacheSize info) (lastCollectionUptime info)
    (kept ++ [record]).

Definition noCollectorEnabled (s : State) : bool :=
  negb (enabled (mUidIoStats s)) && negb (enabled (mProcStat s)) &&
  negb (enabled (mProcPidStat s)).

Definition collectLocked (collectionInfo : InfoPtr) : M unit :=
  (st <- gets (fun s => s) ;;
   if noCollectorEnabled st then fail (error NO_CODE "No collectors enabled")
   else
     let time := systemClock st in
     systemIoPerfData <- collectSystemIoPerfDataLocked ;;
     processIoPerfData <- collectProcessIoPerfDataLocked ;;
     uidIoPerfData <- collectUidIoPerfDataLocked ;;
     modify (fun s =>
               assign collectionInfo
                 (cacheRecord
                    (mkIoPerfRecord time uidIoPerfData systemIoPerfData processIoPerfData)
                    (deref collectionInfo s)) s))%io.

Section Service.

Variable K : Constants.

(** ** The message handler *)

Definition reschedule (event : CollectionEvent) (info : InfoPtr) (s : State) : State :=
  let i := deref info s in
  let next := i64 (lastCollectionUptime i + interval i) in
  let s' := assign info
              (mkCollectionInfo (interval i) (maxCacheSize i) next (records i)) s in
  set_mHandlerLooper (sendMessageAtTime next (Collect event) (mHandlerLooper s')) s'.

Definition processCollectionEvent (event : CollectionEvent) (info : InfoPtr) : M unit :=
  fun s =>
    if negb (CollectionEvent_eqb (mCurrCollectionEvent s) event) then (Ok tt, s)
    else if maxCacheSize (deref info s) =? 0
    then (Err (error NO_CODE "Maximum cache size for collection cannot be 0"), s)
    else if interval (deref info s) <? kMinCollectionInterval K
    then (Err (error NO_CODE "Collection interval cannot be less than the minimum"), s)
    else
      (mapErr (fun e => error NO_CODE "collection failed: ") (collectLocked info) ;;
       modify (reschedule event info))%io s.

(** The failure branch at the end of [handleMessage]. *)
Definition terminateFromHandler (s : State) : State :=
  let s1 := set_mCurrCollectionEvent TERMINATED s in
  set_mHandlerLooper (wake (removeMessages (mHandlerLooper s1))) s1.

Definition endCustomCollectionMessage (s : State) : State :=
  match mCurrCollectionEvent s with
  | CUSTOM =>
      let s1 := set_mCustomCollection emptyCollectionInfo s in
      let s2 := set_mHandlerLooper (removeMessages (mHandlerLooper s1)) s1 in
      let s3 := set_mCurrCollectionEvent PERIODIC s2 in
      let p := mPeriodicCollection s3 in
      let s4 := set_mPeriodicCollection
                  (mkCollectionInfo (interval p) (maxCacheSize p)
                     (now (mHandlerLooper s3)) (records p)) s3 in
      set_mHandlerLooper (sendMessage (Collect PERIODIC) (mHandlerLooper s4)) s4
  | _ => s
  end.

Definition finish (r : Result unit * State) : State :=
  match r with
  | (Ok _, s) => s
  | (Err _, s) => terminateFromHandler s
  end.

Definition handleMessage (message : Message) (s : State) : State :=
  match message with
  | Collect BOOT_TIME => finish (processCollectionEvent BOOT_TIME pBoottime s)
  | Collect PERIODIC => finish (processCollectionEvent PERIODIC pPeriodic s)
  | Collect CUSTOM => finish (processCollectionEvent CUSTOM pCustom s)
  | Switch END_CUSTOM_COLLECTION => endCustomCollectionMessage s
  | _ => finish (Err (error NO_CODE "Unknown message: "), s)
  end.

(** ** The public interface *)

(** The part of [start] that runs on the caller's thread. *)
Definition start : M unit :=
  fun s =>
    if negb (CollectionEvent_eqb (mCurrCollectionEvent s) INIT) || mCollectionThreadJoinable s
    then (Err (error INVALID_OPERATION
                 "Cannot start I/O performance collection more than once"), s)
    else
      let s1 := set_mBoottimeCollection
                  (mkCollectionInfo (kBoottimeCollectionInterval K) SIZE_MAX 0 []) s in
      let s2 := set_mPeriodicCollection
                  (mkCollectionInfo (kPeriodicCollectionInterval K)
                     (kPeriodicCollectionBufferSize K) 0 []) s1 in
      (Ok tt, set_mCollectionThreadJoinable true s2).

(** The first critical section of the collection thread started by
    [start]. *)
Definition collectionThreadEntry (s : State) : State :=
  match mCurrCollectionEvent s with
  | INIT =>
      let s1 := set_mCurrCollectionEvent BOOT_TIME s in
      let b := mBoottimeCollection s1 in
      let s2 := set_mBoottimeCollection
                  (mkCollectionInfo (interval b) (maxCacheSize b)
                     (now (mHandlerLooper s1)) (records b)) s1 in
      set_mHandlerLooper
        (sendMessage (Collect BOOT_TIME) (setLooper (mHandlerLooper s2))) s2
  | _ => s
  end.

(** [terminate]; joining leaves the thread no longer joinable. *)
Definition terminate (s : State) : State :=
  match mCurrCollectionEvent s with
  | TERMINATED => s
  | _ =>
      let s1 := set_mCurrCollectionEvent TERMINATED s in
      if mCollectionThreadJoinable s1
      then set_mCollectionThreadJoinable false
             (set_mHandlerLooper (wake (removeMessages (mHandlerLooper s1))) s1)
      else s1
  end.

Definition onBootFinished : M unit :=
  fun s =>
    if negb (CollectionEvent_eqb (mCurrCollectionEvent s) BOOT_TIME)
    then (Err (error INVALID_OPERATION
                 "Current I/O performance data collection event != BOOT_TIME collection event"), s)
    else
      let s1 := set_mHandlerLooper (removeMessages (mHandlerLooper s)) s in
      let s2 := set_mCurrCollectionEvent PERIODIC s1 in
      let p := mPeriodicCollection s2 in
      let s3 := set_mPeriodicCollection
                  (mkCollectionInfo (interval p) (maxCacheSize p)
                     (now (mHandlerLooper s2)) (records p)) s2 in
      (Ok tt, set_mHandlerLooper (sendMessage (Collect PERIODIC) (mHandlerLooper s3)) s3).

Definition startCustomCollection (interval maxDuration : Z) : M unit :=
  fun s =>
    if (interval <? kMinCollectionInterval K) || (maxDuration <? kMinCollectionInterval K)
    then (Err (error INVALID_OPERATION
                 "Collection interval and maximum duration must be >= the minimum"), s)
    else if negb (CollectionEvent_eqb (mCurrCollectionEvent s) PERIODIC)
    then (Err (error INVALID_OPERATION
                 "Cannot start a custom collection when the current collection event != PERIODIC"), s)
    else
      let s1 := set_mCustomCollection
                  (mkCollectionInfo interval SIZE_MAX (now (mHandlerLooper s)) []) s in
      let s2 := set_mHandlerLooper (removeMessages (mHandlerLooper s1)) s1 in
      let uptime := i64 (now (mHandlerLooper s2) + maxDuration) in
      let s3 := set_mHandlerLooper
                  (sendMessageAtTime uptime (Switch END_CUSTOM_COLLECTION)
                     (mHandlerLooper s2)) s2 in
      let s4 := set_mCurrCollectionEvent CUSTOM s3 in
      (Ok tt, set_mHandlerLooper (sendMessage (Collect CUSTOM) (mHandlerLooper s4)) s4).

(** [dumpCollectorsStatusLocked]: a status line is written for every
    disabled collector; [fdWritable] tells whether writes to the
    descriptor succeed. *)
Definition dumpCollectorsStatusLocked (fdWritable : bool) (s : State) : Result unit :=
  if negb (enabled (mUidIoStats s)) && negb fdWritable
  then Err (error NO_CODE "Failed to write UidIoStats collector status")
  else if negb (enabled (mProcStat s)) && negb fdWritable
  then Err (error NO_CODE "Failed to write ProcStat collector status")
  else if negb (enabled (mProcPidStat s)) && negb fdWritable
  then Err (error NO_CODE "Failed to write ProcPidStat collector status")
  else Ok tt.

Definition endCustomCollection (fdWritable : bool) : M unit :=
  fun s =>
    if negb (CollectionEvent_eqb (mCurrCollectionEvent s) CUSTOM)
    then (Err (error INVALID_OPERATION "No custom collection is running"), s)
    else
      let s1 := set_mHandlerLooper (removeMessages (mHandlerLooper s)) s in
      let s2 := set_mHandlerLooper
                  (sendMessage (Switch END_CUSTOM_COLLECTION) (mHandlerLooper s1)) s1 in
      match dumpCollectorsStatusLocked fdWritable s2 with
      | Err e => (Err (error FAILED_TRANSACTION (message e)), s2)
      | Ok _ =>
          if negb fdWritable
          then (Err (error FAILED_TRANSACTION "Failed to write custom collection report."), s2)
          else (Ok tt, s2)
      end.

(** Modelled from the spec: one turn of the collection thread's loop,
    [pollAll] followed by the handler; the looper itself is not among the
    sources.  The earliest pending message is delivered once the clock
    has reached its due time. *)
Definition pollOnce (s : State) : State :=
  match queue (mHandlerLooper s) with
  | [] => s
  | (t, m) :: rest =>
      let l := mHandlerLooper s in
      handleMessage m
        (set_mHandlerLooper (mkLooper (Z.max (now l) t) rest (wakes l) (prepared l)) s)
  end.

End Service.


(** ** Dumps and their arguments *)

(** The flags and defaults of [IoPerfCollection.h] read by [dump]; the
    header is not among the sources, so they are parameters. *)
Record DumpConstants := mkDumpConstants {
  kStartCustomCollectionFlag : string;
  kEndCustomCollectionFlag : string;
  kIntervalFlag : string;
  kMaxDurationFlag : string;
  kCustomCollectionInterval : Z;
  kCustomCollectionDuration : Z
}.

(** [duration_cast<nanoseconds>] of a count of seconds. *)
Definition secondsToNanoseconds (secs : Z) : Z := i64 (secs * 1000000000).

Section Dump.

Variable K : Constants.
Variable D : DumpConstants.

(** [android::base::ParseUint<uint64_t>], of the platform's base library. *)
Variable ParseUint : string -> option Z.

(** [dumpCollection]; as for [endCustomCollection], the text written is
    left out and [fdWritable] tells whether writes to the descriptor
    succeed. *)
Definition dumpCollection (fdWritable : bool) : M unit :=
  fun s =>
    if CollectionEvent_eqb (mCurrCollectionEvent s) TERMINATED && negb fdWritable
    then (Err (error FAILED_TRANSACTION
                 "Failed to write I/O performance collection status"), s)
    else
      match dumpCollectorsStatusLocked fdWritable s with
      | Err e => (Err (error FAILED_TRANSACTION (message e)), s)
      | Ok _ =>
          if negb fdWritable
          then (Err (error FAILED_TRANSACTION
                       "Failed to dump the boot-time and periodic collection reports."), s)
          else (Ok tt, s)
      end.

(** <<
    if (args.size() < pos) { return Error() << "Value not provided"; }
    uint64_t value;
    std::string strValue = std::string(String8(args[pos]).string());
    if (!ParseUint(strValue, &value)) { return Error() << "Invalid value ..."; }
    return std::chrono::seconds(value);
    >>
    [None] stands for the read of [args[pos]] past the end of the vector,
    whose behaviour is undefined. *)
Definition parseSecondsFlag (args : list string) (pos : nat) : option (Result Z) :=
  if (List.length args <? pos)%nat
  then Some (Err (error NO_CODE "Value not provided"))
  else match nth_error args pos with
       | None => None
       | Some strValue =>
           match ParseUint strValue with
           | None => Some (Err (error NO_CODE "Invalid value, must be an integer"))
           | Some value => Some (Ok (i64 value))
           end
       end.

(** The flag loop of [dump], [for (size_t i = 1; i < args.size(); ++i)]:
    [rest] is [args] from index [i] on.  A value flag consumes the next
    argument as well. *)
Fixpoint dumpFlags (args rest : list string) (i : nat) (interval maxDuration : Z)
  : option (Result (Z * Z)) :=
  match rest with
  | [] => Some (Ok (interval, maxDuration))
  | flag :: rest' =>
      if String.eqb flag (kIntervalFlag D) then
        match parseSecondsFlag args (i + 1) with
        | None => None
        | Some (Err e) =>
            Some (Err (error FAILED_TRANSACTION "Failed to parse the interval flag: "))
        | Some (Ok secs) =>
            match rest' with
            | [] => Some (Ok (secondsToNanoseconds secs, maxDuration))
            | _ :: rest'' =>
                dumpFlags args rest'' (i + 2) (secondsToNanoseconds secs) maxDuration
            end
        end
      else if String.eqb flag (kMaxDurationFlag D) then
        match parseSecondsFlag args (i + 1) with
        | None => None
        | Some (Err e) =>
            Some (Err (error FAILED_TRANSACTION "Failed to parse the maximum duration flag: "))
        | Some (Ok secs) =>
            match rest' with
            | [] => Some (Ok (interval, secondsToNanoseconds secs))
            | _ :: rest'' =>
                dumpFlags args rest'' (i + 2) interval (secondsToNanoseconds secs)
            end
        end
      else Some (Err (error INVALID_OPERATION
                        "Unknown flag provided to start custom I/O performance data collection"))
  end.

Definition dump (fdWritable : bool) (args : list string) (s : State)
  : option (Result unit * State) :=
  match args with
  | [] => Some (dumpCollection fdWritable s)
  | first :: rest =>
      if String.eqb first (kStartCustomCollectionFlag D) then
        if (5 <? List.length args)%nat
        then Some (Err (error INVALID_OPERATION
                          "Number of arguments to start custom I/O performance data collection cannot exceed 5"), s)
        else
          match dumpFlags args rest 1 (kCustomCollectionInterval D)
                  (kCustomCollectionDuration D) with
          | None => None
          | Some (Err e) => Some (Err e, s)
          | Some (Ok (interval, maxDuration)) =>
              Some (startCustomCollection K interval maxDuration s)
          end
      else if String.eqb first (kEndCustomCollectionFlag D) then
        Some (endCustomCollection fdWritable s)
      else Some (Err (error INVALID_OPERATION
                        "Dump arguments start neither with the start nor with the end flag"), s)
  end.

End Dump.

(** ** Vocabulary of the properties *)

(** Descending order of a list under a ranked metric. *)
Definition descending {A} (key : A -> Z) (l : list A) : Prop :=
  StronglySorted (fun a b => key b <= key a) l.

(** The ranked metric of an entry of [topNReads] or [topNWrites]: the sum
    of its bytes over both UID states. *)
Definition ioStatKey (s : UidIoStat) : Z := u64 (fst (bytes s) + snd (bytes s)).

(** The collection a tick message of an event works on, as paired in the
    [switch] of [handleMessage]. *)
Definition collectionOf (e : CollectionEvent) : option InfoPtr :=
  match e with
  | BOOT_TIME => Some pBoottime
  | PERIODIC => Some pPeriodic
  | CUSTOM => Some pCustom
  | _ => None
  end.

(** The members owned by the scheduler: mode, thread, caches and looper. *)
Definition sched (s : State)
  : CollectionEvent * bool * CollectionInfo * CollectionInfo * CollectionInfo * LooperWrapper :=
  (mCurrCollectionEvent s, mCollectionThreadJoinable s, mBoottimeCollection s,
   mPeriodicCollection s, mCustomCollection s, mHandlerLooper s).

(** The next read of an enabled collector fails. *)
Definition sourceFails {T} (c : Collector T) : bool :=
  enabled c && negb (isOk (answers c (reads c))).

Definition anySourceFails (s : State) : bool :=
  sourceFails (mProcStat s) || sourceFails (mProcPidStat s) || sourceFails (mUidIoStats s).

(** Number of reads made so far of the three collectors. *)
Definition readCounts (s : State) : nat * nat * nat :=
  (reads (mUidIoStats s), reads (mProcStat s), reads (mProcPidStat s)).

(** ** Sample configurations *)

Definition sampleConstants : Constants :=
  mkConstants 1000000000 1000000000 10000000000 2.

Definition readerUsage (uid rd : Z) : Z * UidIoUsage :=
  (uid, mkUidIoUsage uid (mkIoUsage rd 0 0 0 0 0)).
Definition writerUsage (uid wr : Z) : Z * UidIoUsage :=
  (uid, mkUidIoUsage uid (mkIoUsage 0 0 wr 0 0 0)).

(** A UID I/O collector that reports uid 7 reading 100 bytes, then 300. *)
Definition sampleUidIoStats : Collector (list (Z * UidIoUsage)) :=
  mkCollector true
    (fun n => match n with
              | O => Ok [readerUsage 7 100]
              | S _ => Ok [readerUsage 7 300]
              end) 0.

(** A UID I/O collector that reports uid 7 writing 100 bytes and reading
    nothing. *)
Definition writerOnlyUidIoStats : Collector (list (Z * UidIoUsage)) :=
  mkCollector true (fun _ => Ok [writerUsage 7 100]) 0.

Definition readFailure : Error := error NO_CODE "read failed".

Definition disabledCollector {T} : Collector T :=
  mkCollector false (fun _ => Err readFailure) 0.
Definition failingCollector {T} : Collector T :=
  mkCollector true (fun _ => Err readFailure) 0.

Definition sampleNameServices : NameServices := mkNameServices (fun _ => None) None.

(** A freshly constructed service. *)
Definition newService (uidIoStats : Collector (list (Z * UidIoUsage)))
  (procStat : Collector ProcStatInfo) (procPidStat : Collector (list ProcessStats))
  (topN : nat) : State :=
  mkState INIT false emptyCollectionInfo emptyCollectionInfo emptyCollectionInfo
    (mkLooper 0 [] 0 false) uidIoStats procStat procPidStat topN 0 []
    false sampleNameServices 0.

(** The service after [start] and the entry of the collection thread. *)
Definition started (s : State) : State :=
  collectionThreadEntry (snd (start sampleConstants s)).

Definition sampleBootTime : State :=
  started (newService sampleUidIoStats disabledCollector disabledCollector 5).

Definition samplePeriodic : State := snd (onBootFinished sampleBootTime).

Definition sampleCustom : State :=
  snd (startCustomCollection sampleConstants 2000000000 60000000000 samplePeriodic).

(** One enabled collector works and another enabled one fails to read. *)
Definition sampleReadFailure : State :=
  started (newService sampleUidIoStats failingCollector disabledCollector 5).

(** The boot-time tick is handled late: the looper's clock reads 5 s while
    the last collection uptime is still 0. *)
Definition sampleLateTick : State :=
  set_mHandlerLooper (mkLooper 5000000000 [] 0 true) sampleBootTime.

(** [n] turns of the collection thread. *)
Fixpoint pollTimes (K : Constants) (n : nat) (s : State) : State :=
  match n with
  | O => s
  | S n' => pollTimes K n' (pollOnce K s)
  end.

(** ** Vocabulary of the further properties *)

(** A sample entry is accounted for by a ranked list when it is a member
    or ranks no higher than every member. *)
Definition accounted {A} (key : A -> Z) (u : A) (l : list A) : Prop :=
  In u l \/ Forall (fun y => key u <= key y) l.

(** The usages of a sample that show any I/O. *)
Definition activeUsages (usage : list (Z * UidIoUsage)) : list UidIoUsage :=
  filter (fun u => negb (usageIsZero u)) (map snd usage).


(** Sum of a field over the values of a map. *)
Definition sumOver {T} (f : T -> Z) (m : list (Z * T)) : Z :=
  fold_right (fun kv acc => f (snd kv) + acc) 0 m.

(** The tasks a process contributes to its UID. *)
Definition tasksOf (p : ProcessStats) : Z :=
  if ps_uid p <? 0 then 0 else Z.of_nat (List.length (threads p)).

(** Threads and major faults of the processes that [getUidProcessStats]
    takes into account, those with a non-negative uid. *)
Definition threadCount (processStats : list ProcessStats) : Z :=
  fold_right (fun p acc => (if ps_uid p <? 0 then 0
                            else Z.of_nat (List.length (threads p))) + acc) 0 processStats.
Definition faultCount (processStats : list ProcessStats) : Z :=
  fold_right (fun p acc => (if ps_uid p <? 0 then 0
                            else pid_majorFaults (process p)) + acc) 0 processStats.

(** A sample of four UIDs: a reader, a writer, one without I/O, one that
    reads and writes. *)
Definition sampleUsage : list (Z * UidIoUsage) :=
  [readerUsage 7 100; writerUsage 8 50; (9, mkUidIoUsage 9 zeroIoUsage);
   (10, mkUidIoUsage 10 (mkIoUsage 30 5 70 0 2 1))].

(** Three processes of two UIDs and one process without a valid uid. *)
Definition sampleProcessStats : list ProcessStats :=
  [mkProcessStats 1000 (mkPidStat "S" 4) [(1, mkPidStat "S" 4); (2, mkPidStat "D" 0)];
   mkProcessStats 10007 (mkPidStat "D" 9) [(3, mkPidStat "D" 9)];
   mkProcessStats (-1) (mkPidStat "D" 50) [(4, mkPidStat "D" 50)];
   mkProcessStats 1000 (mkPidStat "R" 1) [(5, mkPidStat "R" 1)]].

(** A collector after a pass that reaches it: read once when enabled, left
    alone when disabled. *)
Definition afterRead {T} (c : Collector T) : Collector T :=
  if enabled c then mkCollector (enabled c) (answers c) (S (reads c)) else c.

(** A service whose name services know the native uid 1000 and cannot
    reach the package manager; uid 5 is named already. *)
Definition sampleNamedService : State :=
  mkState INIT false emptyCollectionInfo emptyCollectionInfo emptyCollectionInfo
    (mkLooper 0 [] 0 false) sampleUidIoStats disabledCollector disabledCollector 5 0
    [(5, "five"%string)] false
    (mkNameServices (fun u => if u =? 1000 then Some "system"%string else None) None) 0.

(** The mode changes the service makes: none, [INIT] to [BOOT_TIME],
    [BOOT_TIME] to [PERIODIC], [PERIODIC] to [CUSTOM] and back, and
    anything to [TERMINATED]. *)
Definition modeStep (a b : CollectionEvent) : bool :=
  CollectionEvent_eqb a b ||
  match a, b with
  | INIT, BOOT_TIME | BOOT_TIME, PERIODIC | PERIODIC, CUSTOM | CUSTOM, PERIODIC => true
  | _, TERMINATED => true
  | _, _ => false
  end.


(** The messages of a list handled one after the other. *)
Definition handleAll (K : Constants) (messages : list Message) (s : State) : State :=
  fold_left (fun st m => handleMessage K m st) messages s.

Definition sampleDumpConstants : DumpConstants :=
  mkDumpConstants "--start_io" "--stop_io" "--interval" "--max_duration"
    10000000000 1800000000000.

(** A parser that knows the two numerals used in the samples. *)
Definition sampleParseUint (str : string) : option Z :=
  if String.eqb str "2" then Some 2
  else if String.eqb str "60" then Some 60
  else None.

(** * Properties *)

(** ** The bounded top-N scan *)

Section Ranking.

Context {A : Type}.
Variable key : A -> Z.

Lemma removelast_length (l : list A) :
  List.length (removelast l) = Nat.pred (List.length l).
Proof.
  induction l as [|x [|y r] IH]; simpl in *; auto.
Qed.

Lemma removelast_In (l : list A) (y : A) : In y (removelast l) -> In y l.
Proof.
  induction l as [|x [|z r] IH]; simpl; intros H; auto.
  destruct H as [H|H]; [left; exact H | right; apply IH; exact H].
Qed.

Lemma descending_removelast (l : list A) : descending key l -> descending key (removelast l).
Proof.
  unfold descending. induction 1 as [|x l Hs IH Hx]; simpl.
  - constructor.
  - destruct l as [|z r]; [constructor|].
    constructor; [exact IH|].
    apply Forall_forall. intros y Hy.
    rewrite Forall_forall in Hx. apply Hx. apply removelast_In. exact Hy.
Qed.

Lemma insertTopN_length (cur : A) (l : list A) :
  List.length (insertTopN key cur l) = List.length l.
Proof.
  induction l as [|x r IH]; simpl; [reflexivity|].
  destruct (key x >? key cur); simpl.
  - now rewrite IH.
  - destruct r as [|z r']; [reflexivity|].
    pose proof (removelast_length (x :: z :: r')) as E.
    simpl in *. lia.
Qed.

Lemma insertTopN_In (cur : A) (l : list A) (y : A) :
  In y (insertTopN key cur l) -> y = cur \/ In y l.
Proof.
  induction l as [|x r IH]; simpl; [tauto|].
  destruct (key x >? key cur).
  - intros [H|H]; [right; left; exact H|].
    destruct (IH H) as [E|E]; [left; exact E | right; right; exact E].
  - intros [H|H]; [left; symmetry; exact H|].
    right. apply (removelast_In (x :: r)). exact H.
Qed.

(** The scan keeps a descending list descending. *)
Lemma insertTopN_descending (cur : A) (l : list A) :
  descending key l -> descending key (insertTopN key cur l).
Proof.
  unfold descending. induction 1 as [|x r Hs IH Hx]; simpl; [constructor|].
  destruct (key x >? key cur) eqn:C.
  - constructor; [exact IH|].
    apply Forall_forall. intros y Hy.
    destruct (insertTopN_In _ _ _ Hy) as [E|E].
    + subst y. apply Z.gtb_lt in C. lia.
    + rewrite Forall_forall in Hx. apply Hx. exact E.
  - assert (Hc : key x <= key cur).
    { destruct (Z.gtb_spec (key x) (key cur)); [discriminate | lia]. }
    constructor.
    + apply (descending_removelast (x :: r)). constructor; assumption.
    + apply Forall_forall. intros y Hy.
      apply (removelast_In (x :: r)) in Hy. destruct Hy as [E|E].
      * subst y. exact Hc.
      * rewrite Forall_forall in Hx. specialize (Hx y E). lia.
Qed.

(** In a descending list the last element is a minimum. *)
Lemma descending_last_min (l : list A) (d : A) :
  descending key l -> Forall (fun y => key (last l d) <= key y) l.
Proof.
  unfold descending. induction 1 as [|x r Hs IH Hx]; [constructor|].
  destruct r as [|z r'].
  - constructor; [simpl; lia | constructor].
  - change (last (x :: z :: r') d) with (last (z :: r') d).
    constructor; [|exact IH].
    rewrite Forall_forall in Hx. apply Hx.
    clear. revert z. induction r' as [|w r'' IHr]; intros z; [left; reflexivity|].
    right. apply IHr.
Qed.

(** A candidate that some member does not exceed enters the list, and
    the member that leaves is the last one; every other member stays, in
    its place relative to the others. *)
Lemma insertTopN_displaces_last (cur : A) (l : list A) :
  Exists (fun x => key x <= key cur) l ->
  exists pre post,
    removelast l = pre ++ post /\
    insertTopN key cur l = pre ++ cur :: post /\
    Forall (fun x => key cur < key x) pre.
Proof.
  induction l as [|x r IH]; intros H; [inversion H|].
  simpl insertTopN. destruct (Z.gtb_spec (key x) (key cur)) as [G|G].
  - assert (Hr : Exists (fun x => key x <= key cur) r).
    { inversion H as [? ? Hx|? ? Hx]; subst; [lia | exact Hx]. }
    destruct (IH Hr) as (pre & post & E1 & E2 & F).
    exists (x :: pre), post. repeat split.
    + destruct r as [|z r']; [inversion Hr|].
      change (removelast (x :: z :: r')) with (x :: removelast (z :: r')).
      rewrite E1. reflexivity.
    + rewrite E2. reflexivity.
    + constructor; [lia | exact F].
  - exists [], (removelast (x :: r)). repeat split. constructor.
Qed.

(** A candidate below every member leaves the list as it is. *)
Lemma insertTopN_rejects (cur : A) (l : list A) :
  Forall (fun x => key cur < key x) l -> insertTopN key cur l = l.
Proof.
  induction 1 as [|x r Hx Hr IH]; simpl; [reflexivity|].
  destruct (Z.gtb_spec (key x) (key cur)); [now rewrite IH | lia].
Qed.

Lemma repeat_descending (x : A) (n : nat) : descending key (repeat x n).
Proof.
  unfold descending. induction n as [|n IH]; simpl; constructor; [exact IH|].
  apply Forall_forall. intros y Hy. apply repeat_spec in Hy. subst. lia.
Qed.

Variable stop : A -> bool.

Lemma takeUntil_length (l : list A) :
  (List.length (takeUntil stop l) <= List.length l)%nat.
Proof.
  induction l as [|x r IH]; simpl; [lia|]. destruct (stop x); simpl; lia.
Qed.

Lemma takeUntil_In (l : list A) (y : A) : In y (takeUntil stop l) -> In y l.
Proof.
  induction l as [|x r IH]; simpl; [tauto|].
  destruct (stop x); simpl; [tauto|]. intros [H|H]; auto.
Qed.

Lemma takeUntil_descending (l : list A) : descending key l -> descending key (takeUntil stop l).
Proof.
  unfold descending. induction 1 as [|x r Hs IH Hx]; simpl; [constructor|].
  destruct (stop x); constructor; [exact IH|].
  apply Forall_forall. intros y Hy. rewrite Forall_forall in Hx.
  apply Hx. apply takeUntil_In. exact Hy.
Qed.

Lemma takeUntil_not_stop (l : list A) : Forall (fun y => stop y = false) (takeUntil stop l).
Proof.
  induction l as [|x r IH]; simpl; [constructor|].
  destruct (stop x) eqn:E; constructor; assumption.
Qed.

End Ranking.

Lemma descending_map {A B} (f : A -> B) (key : B -> Z) (l : list A) :
  descending (fun a => key (f a)) l -> descending key (map f l).
Proof.
  unfold descending. induction 1 as [|x r Hs IH Hx]; simpl; constructor; [exact IH|].
  apply Forall_forall. intros y Hy. apply in_map_iff in Hy.
  destruct Hy as (a & <- & Ha). rewrite Forall_forall in Hx. apply Hx. exact Ha.
Qed.

(** ** The ranking loops keep their candidates ordered and bounded *)

Lemma uidScan_fold (mapping : list (Z * string)) (usage : list (Z * UidIoUsage))
  (acc : UidScan) :
  descending readKey (us_topNReads acc) ->
  descending writeKey (us_topNWrites acc) ->
  let r := fold_left (uidScanStep mapping) usage acc in
  descending readKey (us_topNReads r) /\
  descending writeKey (us_topNWrites r) /\
  List.length (us_topNReads r) = List.length (us_topNReads acc) /\
  List.length (us_topNWrites r) = List.length (us_topNWrites acc).
Proof.
  revert acc. induction usage as [|u rest IH]; intros acc Hr Hw; simpl.
  - auto.
  - unfold uidScanStep at 2 4 6 8. destruct (isZero (ios (snd u))).
    + apply IH; assumption.
    + match goal with |- context [fold_left _ rest ?a] => specialize (IH a) end.
      simpl in IH. rewrite !insertTopN_length in IH.
      apply IH; apply insertTopN_descending; assumption.
Qed.

Lemma processScan_fold (mapping : list (Z * string))
  (stats : list (Z * UidProcessStats)) (acc : ProcessScan) :
  descending ioBlockedTasksCnt (ps_topNIoBlockedUids acc) ->
  descending majorFaults (ps_topNMajorFaults acc) ->
  let r := fold_left (processScanStep mapping) stats acc in
  descending ioBlockedTasksCnt (ps_topNIoBlockedUids r) /\
  descending majorFaults (ps_topNMajorFaults r) /\
  List.length (ps_topNIoBlockedUids r) = List.length (ps_topNIoBlockedUids acc) /\
  List.length (ps_topNMajorFaults r) = List.length (ps_topNMajorFaults acc).
Proof.
  revert acc. induction stats as [|u rest IH]; intros acc Hb Hf; simpl.
  - auto.
  - match goal with |- context [fold_left _ rest ?a] => specialize (IH a) end.
    simpl in IH. rewrite !insertTopN_length in IH.
    apply IH; apply insertTopN_descending; assumption.
Qed.

(** Every reported list is in descending order of its metric and holds at
    most [n] entries; the lists of I/O-blocked and major-fault UIDs hold no
    zero entry, the read and write lists no record without any I/O. *)
Lemma reported_lists_ordered_bounded (mapping names : list (Z * string)) (n : nat)
  (usage : list (Z * UidIoUsage)) (stats : list (Z * UidProcessStats)) :
  let us := uidScan mapping n usage in
  let ps := processScan mapping n stats in
  (descending ioStatKey (map (readStat names) (reportedReads us)) /\
   (List.length (map (readStat names) (reportedReads us)) <= n)%nat /\
   Forall (fun u => isZero (ios u) = false) (reportedReads us)) /\
  (descending ioStatKey (map (writeStat names) (reportedWrites us)) /\
   (List.length (map (writeStat names) (reportedWrites us)) <= n)%nat /\
   Forall (fun u => isZero (ios u) = false) (reportedWrites us)) /\
  (descending count (map (ioBlockedStat names) (reportedIoBlocked ps)) /\
   (List.length (map (ioBlockedStat names) (reportedIoBlocked ps)) <= n)%nat /\
   Forall (fun s => count s <> 0) (map (ioBlockedStat names) (reportedIoBlocked ps))) /\
  (descending count (map (majorFaultsStat names) (reportedMajorFaults ps)) /\
   (List.length (map (majorFaultsStat names) (reportedMajorFaults ps)) <= n)%nat /\
   Forall (fun s => count s <> 0) (map (majorFaultsStat names) (reportedMajorFaults ps))).
Proof.
  intros us ps. unfold uidScan in us. unfold processScan in ps.
  destruct (uidScan_fold mapping usage
              (mkUidScan [] zeroIoUsage (repeat tempUsage n) (repeat tempUsage n)))
    as (Hr & Hw & Lr & Lw); try apply repeat_descending.
  destruct (processScan_fold mapping stats
              (mkProcessScan [] 0 (repeat temp n) (repeat temp n)))
    as (Hb & Hf & Lb & Lf); try apply repeat_descending.
  simpl in Lr, Lw, Lb, Lf. rewrite repeat_length in Lr, Lw, Lb, Lf.
  fold us in Hr, Hw, Lr, Lw. fold ps in Hb, Hf, Lb, Lf.
  repeat split.
  - apply descending_map. apply (takeUntil_descending readKey). exact Hr.
  - rewrite length_map. unfold reportedReads.
    pose proof (takeUntil_length usageIsZero (us_topNReads us)). lia.
  - apply (takeUntil_not_stop usageIsZero).
  - apply descending_map. apply (takeUntil_descending writeKey). exact Hw.
  - rewrite length_map. unfold reportedWrites.
    pose proof (takeUntil_length usageIsZero (us_topNWrites us)). lia.
  - apply (takeUntil_not_stop usageIsZero).
  - apply descending_map. apply (takeUntil_descending ioBlockedTasksCnt). exact Hb.
  - rewrite length_map. unfold reportedIoBlocked.
    pose proof (takeUntil_length (fun s => ioBlockedTasksCnt s =? 0)
                  (ps_topNIoBlockedUids ps)). lia.
  - apply Forall_map. unfold reportedIoBlocked.
    eapply Forall_impl; [|apply takeUntil_not_stop].
    simpl. intros a Ha. apply Z.eqb_neq. exact Ha.
  - apply descending_map. apply (takeUntil_descending majorFaults). exact Hf.
  - rewrite length_map. unfold reportedMajorFaults.
    pose proof (takeUntil_length (fun s => majorFaults s =? 0)
                  (ps_topNMajorFaults ps)). lia.
  - apply Forall_map. unfold reportedMajorFaults.
    eapply Forall_impl; [|apply takeUntil_not_stop].
    simpl. intros a Ha. apply Z.eqb_neq. exact Ha.
Qed.

(** ** What the collection functions write to the record *)

Lemma collectUidIoPerfDataLocked_lists (s s' : State) (data : UidIoPerfData) :
  collectUidIoPerfDataLocked s = (Ok data, s') ->
  data = emptyUidIoPerfData \/
  exists usage names,
    enabled (mUidIoStats s) = true /\
    answers (mUidIoStats s) (reads (mUidIoStats s)) = Ok usage /\
    let scan := uidScan (mUidToPackageNameMapping s) (mTopNStatsPerCategory s) usage in
    data = mkUidIoPerfData (us_total scan)
             (map (readStat names) (reportedReads scan))
             (map (writeStat names) (reportedWrites scan)).
Proof.
  unfold collectUidIoPerfDataLocked, bind, gets, modify, ret, fail, logOnly, collect.
  destruct (enabled (mUidIoStats s)); simpl.
  - destruct (answers (mUidIoStats s) (reads (mUidIoStats s))) as [usage|e]; simpl.
    + intros H. inversion H; subst. right. eexists; eexists.
      split; [reflexivity|]. split; reflexivity.
    + discriminate.
  - intros H. inversion H. left. reflexivity.
Qed.

Lemma collectProcessIoPerfDataLocked_lists (s s' : State) (data : ProcessIoPerfData) :
  collectProcessIoPerfDataLocked s = (Ok data, s') ->
  data = emptyProcessIoPerfData \/
  exists processStats names,
    enabled (mProcPidStat s) = true /\
    answers (mProcPidStat s) (reads (mProcPidStat s)) = Ok processStats /\
    let scan := processScan (mUidToPackageNameMapping s) (mTopNStatsPerCategory s)
                  (getUidProcessStats processStats) in
    topNIoBlockedUids data = map (ioBlockedStat names) (reportedIoBlocked scan) /\
    topNMajorFaults data = map (majorFaultsStat names) (reportedMajorFaults scan).
Proof.
  unfold collectProcessIoPerfDataLocked, bind, gets, modify, ret, fail, logOnly, collect.
  destruct (enabled (mProcPidStat s)); simpl.
  - destruct (answers (mProcPidStat s) (reads (mProcPidStat s))) as [ps|e]; simpl.
    + intros H. inversion H; subst. right. eexists; eexists.
      split; [reflexivity|]. split; [reflexivity|]. split; reflexivity.
    + discriminate.
  - intros H. inversion H. left. reflexivity.
Qed.

(** The lists of a collected record: all four are in descending order of
    their metric and hold at most [mTopNStatsPerCategory] entries, and the
    per-process lists hold no entry whose count is zero. *)
Lemma produced_lists_ordered_bounded (s su sp : State)
  (udata : UidIoPerfData) (pdata : ProcessIoPerfData) :
  collectUidIoPerfDataLocked s = (Ok udata, su) ->
  collectProcessIoPerfDataLocked s = (Ok pdata, sp) ->
  let n := mTopNStatsPerCategory s in
  (descending ioStatKey (topNReads udata) /\ (List.length (topNReads udata) <= n)%nat) /\
  (descending ioStatKey (topNWrites udata) /\ (List.length (topNWrites udata) <= n)%nat) /\
  (descending count (topNIoBlockedUids pdata) /\
   (List.length (topNIoBlockedUids pdata) <= n)%nat /\
   Forall (fun e => count e <> 0) (topNIoBlockedUids pdata)) /\
  (descending count (topNMajorFaults pdata) /\
   (List.length (topNMajorFaults pdata) <= n)%nat /\
   Forall (fun e => count e <> 0) (topNMajorFaults pdata)).
Proof.
  intros Hu Hp n.
  assert (E : forall B (key : B -> Z), descending key []) by (intros; constructor).
  destruct (collectUidIoPerfDataLocked_lists _ _ _ Hu) as [->|(usage & names & _ & _ & ->)];
    destruct (collectProcessIoPerfDataLocked_lists _ _ _ Hp)
      as [->|(stats & names' & _ & _ & -> & ->)]; simpl;
    repeat match goal with
           | |- _ /\ _ => split
           | |- descending _ [] => apply E
           | |- (0 <= _)%nat => lia
           | |- Forall _ [] => constructor
           end;
    try (apply (reported_lists_ordered_bounded
                  (mUidToPackageNameMapping s) names n usage []));
    try (apply (reported_lists_ordered_bounded
                  (mUidToPackageNameMapping s) names' n [] (getUidProcessStats stats))).
Qed.

(** ** Frame properties of a collection pass

    Reading the collectors and resolving names leaves the members owned
    by the scheduler alone. *)

Ltac crush_matches :=
  repeat match goal with
         | |- context [match ?x with _ => _ end] => destruct x eqn:?; simpl
         end.

Lemma updateUidToPackageNameMapping_frame (uids : list Z) (s : State) :
  let s' := snd (updateUidToPackageNameMapping uids s) in
  sched s' = sched s /\ mUidIoStats s' = mUidIoStats s /\
  mProcStat s' = mProcStat s /\ mProcPidStat s' = mProcPidStat s.
Proof.
  unfold updateUidToPackageNameMapping, bind, gets, modify, ret, fail, mapErr,
    retrievePackageManager.
  simpl.
  destruct (fst (fold_left (splitUid (nameServices s)) uids
                   ([], mUidToPackageNameMapping s))) as [|u us];
    simpl; [repeat split; reflexivity|].
  destruct (mPackageManager s); simpl;
    destruct (package_native (nameServices s)) as [f|]; simpl;
    try (destruct (f (u :: us)); simpl); repeat split; reflexivity.
Qed.

Lemma collectSystemIoPerfDataLocked_frame (s : State) :
  let s' := snd (collectSystemIoPerfDataLocked s) in
  sched s' = sched s /\ mUidIoStats s' = mUidIoStats s /\ mProcPidStat s' = mProcPidStat s.
Proof.
  unfold collectSystemIoPerfDataLocked, bind, gets, modify, ret, fail, collect.
  simpl. crush_matches; repeat split; reflexivity.
Qed.

Lemma collectProcessIoPerfDataLocked_frame (s : State) :
  let s' := snd (collectProcessIoPerfDataLocked s) in
  sched s' = sched s /\ mUidIoStats s' = mUidIoStats s.
Proof.
  unfold collectProcessIoPerfDataLocked, bind, gets, modify, ret, fail, collect, logOnly.
  simpl. destruct (enabled (mProcPidStat s)); simpl; [|split; reflexivity].
  destruct (answers (mProcPidStat s) (reads (mProcPidStat s))); simpl;
    [|split; reflexivity].
  match goal with
  | |- context [updateUidToPackageNameMapping ?u ?t] =>
      destruct (updateUidToPackageNameMapping_frame u t) as (F1 & F2 & _)
  end.
  split; [exact F1 | exact F2].
Qed.

Lemma collectUidIoPerfDataLocked_frame (s : State) :
  sched (snd (collectUidIoPerfDataLocked s)) = sched s.
Proof.
  unfold collectUidIoPerfDataLocked, bind, gets, modify, ret, fail, collect, logOnly.
  simpl. destruct (enabled (mUidIoStats s)); simpl; [|reflexivity].
  destruct (answers (mUidIoStats s) (reads (mUidIoStats s))); simpl; [|reflexivity].
  match goal with
  | |- context [updateUidToPackageNameMapping ?u ?t] =>
      destruct (updateUidToPackageNameMapping_frame u t) as (F1 & _)
  end.
  exact F1.
Qed.

Lemma sched_eq (s s' : State) :
  sched s' = sched s ->
  mCurrCollectionEvent s' = mCurrCollectionEvent s /\
  mCollectionThreadJoinable s' = mCollectionThreadJoinable s /\
  mHandlerLooper s' = mHandlerLooper s /\
  forall p, deref p s' = deref p s.
Proof.
  unfold sched. intros H. injection H as H1 H2 H3 H4 H5 H6.
  repeat split; try assumption. intros []; assumption.
Qed.

Lemma deref_assign (p : InfoPtr) (c : CollectionInfo) (s : State) :
  deref p (assign p c s) = c.
Proof. destruct p; reflexivity. Qed.

Lemma deref_assign_other (p q : InfoPtr) (c : CollectionInfo) (s : State) :
  q <> p -> deref q (assign p c s) = deref q s.
Proof. destruct p, q; intros H; try reflexivity; contradiction H; reflexivity. Qed.

Lemma assign_frame (p : InfoPtr) (c : CollectionInfo) (s : State) :
  mCurrCollectionEvent (assign p c s) = mCurrCollectionEvent s /\
  mCollectionThreadJoinable (assign p c s) = mCollectionThreadJoinable s /\
  mHandlerLooper (assign p c s) = mHandlerLooper s /\
  readCounts (assign p c s) = readCounts s.
Proof. destruct p; repeat split; reflexivity. Qed.

(** ** Outcome of reading one collector *)

Lemma collectSystemIoPerfDataLocked_result (s : State) :
  if sourceFails (mProcStat s)
  then exists e, fst (collectSystemIoPerfDataLocked s) = Err e
  else exists d, fst (collectSystemIoPerfDataLocked s) = Ok d /\
                 (enabled (mProcStat s) = false -> d = emptySystemIoPerfData).
Proof.
  unfold sourceFails, collectSystemIoPerfDataLocked, bind, gets, modify, ret, fail, collect.
  destruct (enabled (mProcStat s)); simpl.
  - destruct (answers (mProcStat s) (reads (mProcStat s))); simpl; eexists; eauto.
    split; [reflexivity | discriminate].
  - eexists; split; reflexivity.
Qed.

Lemma collectProcessIoPerfDataLocked_result (s : State) :
  if sourceFails (mProcPidStat s)
  then exists e, fst (collectProcessIoPerfDataLocked s) = Err e
  else exists d, fst (collectProcessIoPerfDataLocked s) = Ok d /\
                 (enabled (mProcPidStat s) = false -> d = emptyProcessIoPerfData).
Proof.
  unfold sourceFails, collectProcessIoPerfDataLocked, bind, gets, modify, ret, fail,
    collect, logOnly.
  destruct (enabled (mProcPidStat s)); simpl.
  - destruct (answers (mProcPidStat s) (reads (mProcPidStat s))); simpl; eexists; eauto.
    split; [reflexivity | discriminate].
  - eexists; split; reflexivity.
Qed.

Lemma collectUidIoPerfDataLocked_result (s : State) :
  if sourceFails (mUidIoStats s)
  then exists e, fst (collectUidIoPerfDataLocked s) = Err e
  else exists d, fst (collectUidIoPerfDataLocked s) = Ok d /\
                 (enabled (mUidIoStats s) = false -> d = emptyUidIoPerfData).
Proof.
  unfold sourceFails, collectUidIoPerfDataLocked, bind, gets, modify, ret, fail,
    collect, logOnly.
  destruct (enabled (mUidIoStats s)); simpl.
  - destruct (answers (mUidIoStats s) (reads (mUidIoStats s))); simpl; eexists; eauto.
    split; [reflexivity | discriminate].
  - eexists; split; reflexivity.
Qed.

(** ** Outcome of one collection pass *)

(** [collectLocked] fails exactly when no collector is enabled or an
    enabled collector fails to read, and then the cache is left as it was;
    otherwise one record is cached, with the data of every disabled
    collector left empty.  The mode, the thread and the looper are never
    touched. *)
Lemma collectLocked_spec (p : InfoPtr) (s : State) :
  let r := collectLocked p s in
  mCurrCollectionEvent (snd r) = mCurrCollectionEvent s /\
  mCollectionThreadJoinable (snd r) = mCollectionThreadJoinable s /\
  mHandlerLooper (snd r) = mHandlerLooper s /\
  (forall q, q <> p -> deref q (snd r) = deref q s) /\
  match fst r with
  | Err _ =>
      (noCollectorEnabled s = true \/ anySourceFails s = true) /\
      deref p (snd r) = deref p s
  | Ok _ =>
      noCollectorEnabled s = false /\ anySourceFails s = false /\
      exists record,
        deref p (snd r) = cacheRecord record (deref p s) /\
        time record = systemClock s /\
        (enabled (mProcStat s) = false -> systemIoPerfData record = emptySystemIoPerfData) /\
        (enabled (mProcPidStat s) = false ->
         processIoPerfData record = emptyProcessIoPerfData) /\
        (enabled (mUidIoStats s) = false -> uidIoPerfData record = emptyUidIoPerfData)
  end.
Proof.
  unfold collectLocked, bind, gets, modify, fail. simpl.
  destruct (noCollectorEnabled s) eqn:N; simpl.
  { repeat split; auto. }
  pose proof (collectSystemIoPerfDataLocked_frame s) as F1.
  pose proof (collectSystemIoPerfDataLocked_result s) as R1.
  destruct (collectSystemIoPerfDataLocked s) as [r1 s1]. simpl in F1, R1.
  destruct F1 as (F1 & U1 & P1). apply sched_eq in F1. destruct F1 as (A1 & B1 & C1 & D1).
  unfold anySourceFails.
  destruct (sourceFails (mProcStat s)) eqn:S1.
  { destruct R1 as (e & ->). simpl. repeat split; auto. }
  destruct R1 as (d1 & -> & E1).
  pose proof (collectProcessIoPerfDataLocked_frame s1) as F2.
  pose proof (collectProcessIoPerfDataLocked_result s1) as R2.
  destruct (collectProcessIoPerfDataLocked s1) as [r2 s2]. simpl in F2, R2.
  destruct F2 as (F2 & U2). apply sched_eq in F2. destruct F2 as (A2 & B2 & C2 & D2).
  rewrite P1 in R2.
  destruct (sourceFails (mProcPidStat s)) eqn:S2.
  { destruct R2 as (e & ->). simpl.
    repeat split; try congruence; auto; try intros q _; rewrite ?D2, ?D1; auto. }
  destruct R2 as (d2 & -> & E2).
  pose proof (collectUidIoPerfDataLocked_frame s2) as F3.
  pose proof (collectUidIoPerfDataLocked_result s2) as R3.
  destruct (collectUidIoPerfDataLocked s2) as [r3 s3]. simpl in F3, R3.
  apply sched_eq in F3. destruct F3 as (A3 & B3 & C3 & D3).
  rewrite U2, U1 in R3.
  destruct (sourceFails (mUidIoStats s)) eqn:S3.
  { destruct R3 as (e & ->). simpl.
    repeat split; try congruence; auto; try intros q _; rewrite ?D3, ?D2, ?D1; auto. }
  destruct R3 as (d3 & -> & E3). simpl.
  destruct (assign_frame p
              (cacheRecord (mkIoPerfRecord (systemClock s) d3 d1 d2) (deref p s3)) s3)
    as (G1 & G2 & G3 & _).
  repeat split; try congruence.
  - intros q Hq. rewrite deref_assign_other by exact Hq. rewrite D3, D2. apply D1.
  - exists (mkIoPerfRecord (systemClock s) d3 d1 d2). simpl.
    rewrite deref_assign, D3, D2, D1. repeat split; auto.
Qed.

(** ** Small facts about events, wrap-around and the queue *)

Lemma CollectionEvent_eqb_eq (a b : CollectionEvent) :
  CollectionEvent_eqb a b = true <-> a = b.
Proof. destruct a, b; simpl; split; intros H; try reflexivity; discriminate. Qed.

Lemma CollectionEvent_eqb_refl (a : CollectionEvent) : CollectionEvent_eqb a a = true.
Proof. destruct a; reflexivity. Qed.

Lemma CollectionEvent_eqb_neq (a b : CollectionEvent) :
  a <> b -> CollectionEvent_eqb a b = false.
Proof.
  intros H. destruct (CollectionEvent_eqb a b) eqn:E; [|reflexivity].
  apply CollectionEvent_eqb_eq in E. contradiction.
Qed.

Lemma i64_in_range (z : Z) : INT64_MIN <= z <= INT64_MAX -> i64 z = z.
Proof.
  unfold i64, INT64_MIN, INT64_MAX, UINT64_MOD. intros H.
  rewrite Z.mod_small; lia.
Qed.

Lemma enqueue_In (t : Z) (m : Message) (q : list (Z * Message)) :
  In (t, m) (enqueue t m q).
Proof.
  induction q as [|[t' m'] r IH]; simpl; [left; reflexivity|].
  destruct (t <? t'); simpl; auto.
Qed.

Lemma enqueue_keeps (t : Z) (m : Message) (q : list (Z * Message)) (x : Z * Message) :
  In x q -> In x (enqueue t m q).
Proof.
  induction q as [|[t' m'] r IH]; simpl; [tauto|].
  destruct (t <? t'); simpl; intros [H|H]; auto.
Qed.

Lemma handleMessage_tick (K : Constants) (e : CollectionEvent) (p : InfoPtr) (s : State) :
  collectionOf e = Some p ->
  handleMessage K (Collect e) s = finish (processCollectionEvent K e p s).
Proof. destruct e; simpl; intros H; inversion H; reflexivity. Qed.

(** * The claims *)

(** C9.  For all integers [numer] and [denom], [percentage numer denom] is
    exactly [+0.0] when [denom] is zero (no division takes place) and is
    the binary64 value of [numer / denom * 100] otherwise; in particular
    [percentage 0 0 = 0.0] and [percentage 50 200 = 25.0]. *)
Theorem percentage_spec :
  (forall numer, percentage numer 0 = dzero) /\
  (forall numer denom, denom <> 0 ->
     percentage numer denom =
     dmul (ddiv (double_of_Z numer) (double_of_Z denom)) (double_of_Z 100)) /\
  percentage 0 0 = dzero /\
  percentage 50 200 = double_of_Z 25 /\
  double_is_integer (percentage 50 200) 25.
Proof.
  split; [reflexivity|]. split.
  - intros numer denom H. unfold percentage.
    destruct (Z.eqb_spec denom 0); [contradiction | reflexivity].
  - split; [reflexivity|]. split; [vm_compute; reflexivity|].
    vm_compute. split; [discriminate | reflexivity].
Qed.

Lemma percentage_spec_witness :
  percentage 50 200 = dmul (ddiv (double_of_Z 50) (double_of_Z 200)) (double_of_Z 100).
Proof. apply (proj1 (proj2 percentage_spec)). discriminate. Defined.

(** C10.  [terminate] is idempotent: called on a service that is already
    [TERMINATED] it returns at once and leaves the whole state as it is (no
    message is removed, the looper is not woken, the thread is not joined),
    so [terminate; terminate] ends in the state of a single [terminate]. *)
Theorem terminate_idempotent :
  (forall s, mCurrCollectionEvent s = TERMINATED -> terminate s = s) /\
  (forall s, terminate (terminate s) = terminate s).
Proof.
  assert (H : forall s, mCurrCollectionEvent s = TERMINATED -> terminate s = s).
  { intros s E. unfold terminate. rewrite E. reflexivity. }
  split; [exact H|].
  intros s. apply H. unfold terminate.
  destruct (mCurrCollectionEvent s) eqn:E; try exact E; simpl;
    destruct (mCollectionThreadJoinable s); reflexivity.
Qed.

(** C7.  Calls out of sequence are rejected with [INVALID_OPERATION] and
    leave the state (mode, caches, pending messages, everything else)
    exactly as it was: [start] outside [INIT] or with the thread already
    running, [onBootFinished] outside [BOOT_TIME], [startCustomCollection]
    outside [PERIODIC], and [endCustomCollection] outside [CUSTOM]. *)
Theorem out_of_sequence_calls_rejected (K : Constants) (s : State) :
  (mCurrCollectionEvent s <> INIT \/ mCollectionThreadJoinable s = true ->
   exists e, start K s = (Err e, s) /\ code e = INVALID_OPERATION) /\
  (mCurrCollectionEvent s <> BOOT_TIME ->
   exists e, onBootFinished s = (Err e, s) /\ code e = INVALID_OPERATION) /\
  (forall interval maxDuration,
     mCurrCollectionEvent s <> PERIODIC ->
     exists e, startCustomCollection K interval maxDuration s = (Err e, s) /\
               code e = INVALID_OPERATION) /\
  (forall fdWritable,
     mCurrCollectionEvent s <> CUSTOM ->
     exists e, endCustomCollection fdWritable s = (Err e, s) /\
               code e = INVALID_OPERATION).
Proof.
  repeat split.
  - intros [H|H]; unfold start.
    + rewrite (CollectionEvent_eqb_neq _ _ H). simpl. eexists; split; reflexivity.
    + rewrite H, orb_true_r. eexists; split; reflexivity.
  - intros H. unfold onBootFinished.
    rewrite (CollectionEvent_eqb_neq _ _ H). simpl. eexists; split; reflexivity.
  - intros interval maxDuration H. unfold startCustomCollection.
    rewrite (CollectionEvent_eqb_neq _ _ H). simpl.
    destruct ((interval <? kMinCollectionInterval K) ||
              (maxDuration <? kMinCollectionInterval K));
      eexists; split; reflexivity.
  - intros fdWritable H. unfold endCustomCollection.
    rewrite (CollectionEvent_eqb_neq _ _ H). simpl. eexists; split; reflexivity.
Qed.

Lemma out_of_sequence_calls_rejected_witness :
  (exists e, start sampleConstants samplePeriodic = (Err e, samplePeriodic) /\
             code e = INVALID_OPERATION) /\
  (exists e, onBootFinished samplePeriodic = (Err e, samplePeriodic) /\
             code e = INVALID_OPERATION) /\
  (exists e, startCustomCollection sampleConstants 2000000000 60000000000 sampleBootTime
             = (Err e, sampleBootTime) /\ code e = INVALID_OPERATION) /\
  (exists e, endCustomCollection true samplePeriodic = (Err e, samplePeriodic) /\
             code e = INVALID_OPERATION).
Proof.
  split; [|split; [|split]].
  - apply (proj1 (out_of_sequence_calls_rejected sampleConstants samplePeriodic)).
    left. discriminate.
  - apply (proj1 (proj2 (out_of_sequence_calls_rejected sampleConstants samplePeriodic))).
    discriminate.
  - apply (proj1 (proj2 (proj2
             (out_of_sequence_calls_rejected sampleConstants sampleBootTime)))).
    discriminate.
  - apply (proj2 (proj2 (proj2
             (out_of_sequence_calls_rejected sampleConstants samplePeriodic)))).
    discriminate.
Defined.

Lemma terminate_idempotent_witness :
  terminate (terminate samplePeriodic) = terminate samplePeriodic.
Proof.
  apply (proj1 terminate_idempotent (terminate samplePeriodic)). reflexivity.
Defined.

(** C4.  A tick message whose event is not the current collection event is
    dropped: [processCollectionEvent] returns success and the state is
    exactly the one before (no collector is read, no record is cached,
    nothing is scheduled), and [handleMessage] therefore does not
    terminate the service. *)
Theorem stale_tick_dropped (K : Constants) (event : CollectionEvent) (info : InfoPtr)
  (s : State) :
  mCurrCollectionEvent s <> event ->
  processCollectionEvent K event info s = (Ok tt, s) /\
  (collectionOf event = Some info -> handleMessage K (Collect event) s = s).
Proof.
  intros H.
  assert (E : processCollectionEvent K event info s = (Ok tt, s)).
  { unfold processCollectionEvent. rewrite (CollectionEvent_eqb_neq _ _ H). reflexivity. }
  split; [exact E|].
  intros C. rewrite (handleMessage_tick K event info s C), E. reflexivity.
Qed.

Lemma stale_tick_dropped_witness :
  processCollectionEvent sampleConstants BOOT_TIME pBoottime samplePeriodic
  = (Ok tt, samplePeriodic) /\
  (collectionOf BOOT_TIME = Some pBoottime ->
   handleMessage sampleConstants (Collect BOOT_TIME) samplePeriodic = samplePeriodic).
Proof.
  apply (stale_tick_dropped sampleConstants BOOT_TIME pBoottime samplePeriodic).
  discriminate.
Defined.

(** C5.  Handling [END_CUSTOM_COLLECTION] while the mode is [CUSTOM] resets
    the custom collection to the empty [CollectionInfo] (no record left),
    drops the pending messages, switches to [PERIODIC] and posts one
    periodic tick due now; handled in any other mode it changes nothing.
    The message is the one [startCustomCollection] schedules at
    [now + maxDuration] and the one [endCustomCollection] posts. *)
Theorem end_custom_collection_message (K : Constants) (s : State) :
  (mCurrCollectionEvent s = CUSTOM ->
   let s' := handleMessage K (Switch END_CUSTOM_COLLECTION) s in
   mCustomCollection s' = emptyCollectionInfo /\
   List.length (records (mCustomCollection s')) = 0%nat /\
   mCurrCollectionEvent s' = PERIODIC /\
   queue (mHandlerLooper s') = [(now (mHandlerLooper s), Collect PERIODIC)] /\
   lastCollectionUptime (mPeriodicCollection s') = now (mHandlerLooper s) /\
   records (mPeriodicCollection s') = records (mPeriodicCollection s) /\
   mBoottimeCollection s' = mBoottimeCollection s) /\
  (mCurrCollectionEvent s <> CUSTOM ->
   handleMessage K (Switch END_CUSTOM_COLLECTION) s = s) /\
  (forall interval maxDuration s1,
     startCustomCollection K interval maxDuration s = (Ok tt, s1) ->
     INT64_MIN <= now (mHandlerLooper s) + maxDuration <= INT64_MAX ->
     mCurrCollectionEvent s1 = CUSTOM /\
     In (now (mHandlerLooper s) + maxDuration, Switch END_CUSTOM_COLLECTION)
        (queue (mHandlerLooper s1))) /\
  (forall fdWritable,
     mCurrCollectionEvent s = CUSTOM ->
     let s1 := snd (endCustomCollection fdWritable s) in
     mCurrCollectionEvent s1 = CUSTOM /\
     queue (mHandlerLooper s1) = [(now (mHandlerLooper s), Switch END_CUSTOM_COLLECTION)]).
Proof.
  split; [|split; [|split]].
  - intros H. simpl. unfold endCustomCollectionMessage. rewrite H.
    repeat split; reflexivity.
  - intros H. simpl. unfold endCustomCollectionMessage.
    destruct (mCurrCollectionEvent s); try reflexivity. contradiction H. reflexivity.
  - intros interval maxDuration s1 H R. unfold startCustomCollection in H.
    destruct ((interval <? kMinCollectionInterval K) ||
              (maxDuration <? kMinCollectionInterval K)); [discriminate|].
    destruct (negb (CollectionEvent_eqb (mCurrCollectionEvent s) PERIODIC));
      [discriminate|].
    injection H as <-. split; [reflexivity|].
    simpl. rewrite (i64_in_range _ R).
    destruct (now (mHandlerLooper s) <? now (mHandlerLooper s) + maxDuration);
      simpl; auto.
  - intros fdWritable H. unfold endCustomCollection. rewrite H. simpl.
    destruct (dumpCollectorsStatusLocked fdWritable _); simpl;
      [destruct fdWritable|]; simpl; (split; [exact H | reflexivity]).
Qed.

Lemma end_custom_collection_message_witness :
  let s' := handleMessage sampleConstants (Switch END_CUSTOM_COLLECTION) sampleCustom in
  mCustomCollection s' = emptyCollectionInfo /\
  List.length (records (mCustomCollection s')) = 0%nat /\
  mCurrCollectionEvent s' = PERIODIC /\
  queue (mHandlerLooper s') = [(now (mHandlerLooper sampleCustom), Collect PERIODIC)] /\
  lastCollectionUptime (mPeriodicCollection s') = now (mHandlerLooper sampleCustom) /\
  records (mPeriodicCollection s') = records (mPeriodicCollection sampleCustom) /\
  mBoottimeCollection s' = mBoottimeCollection sampleCustom.
Proof.
  apply (proj1 (end_custom_collection_message sampleConstants sampleCustom)).
  reflexivity.
Defined.

(** C6.  A tick for the current event whose collection has
    [maxCacheSize == 0] or an interval below [kMinCollectionInterval] makes
    [processCollectionEvent] return an error without running a collection
    pass (the state is untouched: no collector is read, no record is
    cached), and [handleMessage] then terminates the service and clears
    the looper. *)
Theorem invalid_configuration_terminates (K : Constants) (e : CollectionEvent)
  (p : InfoPtr) (s : State) :
  collectionOf e = Some p ->
  mCurrCollectionEvent s = e ->
  maxCacheSize (deref p s) = 0 \/ interval (deref p s) < kMinCollectionInterval K ->
  (exists err, processCollectionEvent K e p s = (Err err, s)) /\
  let s' := handleMessage K (Collect e) s in
  mCurrCollectionEvent s' = TERMINATED /\
  queue (mHandlerLooper s') = [] /\
  wakes (mHandlerLooper s') = S (wakes (mHandlerLooper s)) /\
  readCounts s' = readCounts s /\
  (forall q, deref q s' = deref q s).
Proof.
  intros C M H.
  assert (E : exists err, processCollectionEvent K e p s = (Err err, s)).
  { unfold processCollectionEvent. rewrite M, CollectionEvent_eqb_refl. simpl.
    destruct (Z.eqb_spec (maxCacheSize (deref p s)) 0) as [Z0|Z0];
      [eexists; reflexivity|].
    destruct (Z.ltb_spec (interval (deref p s)) (kMinCollectionInterval K));
      [eexists; reflexivity | lia]. }
  split; [exact E|].
  destruct E as (err & E). rewrite (handleMessage_tick K e p s C), E. simpl.
  repeat split; try (intros []; reflexivity).
Qed.

(** A periodic collection whose cache bound is zero. *)
Lemma invalid_configuration_terminates_witness :
  let s := set_mPeriodicCollection (mkCollectionInfo 10000000000 0 0 []) samplePeriodic in
  (exists err, processCollectionEvent sampleConstants PERIODIC pPeriodic s = (Err err, s)) /\
  let s' := handleMessage sampleConstants (Collect PERIODIC) s in
  mCurrCollectionEvent s' = TERMINATED /\
  queue (mHandlerLooper s') = [] /\
  wakes (mHandlerLooper s') = S (wakes (mHandlerLooper s)) /\
  readCounts s' = readCounts s /\
  (forall q, deref q s' = deref q s).
Proof.
  intros s.
  apply (invalid_configuration_terminates sampleConstants PERIODIC pPeriodic s).
  - reflexivity.
  - reflexivity.
  - left. reflexivity.
Defined.

Lemma reschedule_spec (e : CollectionEvent) (p : InfoPtr) (s : State) :
  let i := deref p s in
  let next := i64 (lastCollectionUptime i + interval i) in
  deref p (reschedule e p s) =
    mkCollectionInfo (interval i) (maxCacheSize i) next (records i) /\
  mHandlerLooper (reschedule e p s) =
    sendMessageAtTime next (Collect e) (mHandlerLooper s) /\
  mCurrCollectionEvent (reschedule e p s) = mCurrCollectionEvent s.
Proof. destruct p; repeat split; reflexivity. Qed.

(** C8.  After a successful collection pass the stored
    [lastCollectionUptime] is advanced by exactly the interval of the
    collection, and the next tick of the same event is queued for that
    uptime: the deadline is [lastCollectionUptime + interval], whatever the
    looper's clock reads when the tick runs. *)
Theorem next_tick_deadline (K : Constants) (e : CollectionEvent) (p : InfoPtr)
  (s : State) :
  mCurrCollectionEvent s = e ->
  maxCacheSize (deref p s) <> 0 ->
  kMinCollectionInterval K <= interval (deref p s) ->
  fst (collectLocked p s) = Ok tt ->
  INT64_MIN <= lastCollectionUptime (deref p s) + interval (deref p s) <= INT64_MAX ->
  let r := processCollectionEvent K e p s in
  let deadline := lastCollectionUptime (deref p s) + interval (deref p s) in
  fst r = Ok tt /\
  lastCollectionUptime (deref p (snd r)) = deadline /\
  interval (deref p (snd r)) = interval (deref p s) /\
  queue (mHandlerLooper (snd r)) = enqueue deadline (Collect e) (queue (mHandlerLooper s)) /\
  In (deadline, Collect e) (queue (mHandlerLooper (snd r))) /\
  now (mHandlerLooper (snd r)) = now (mHandlerLooper s).
Proof.
  intros M C I L R. unfold processCollectionEvent.
  rewrite M, CollectionEvent_eqb_refl. simpl.
  destruct (Z.eqb_spec (maxCacheSize (deref p s)) 0) as [Z0|_]; [contradiction|].
  destruct (Z.ltb_spec (interval (deref p s)) (kMinCollectionInterval K)); [lia|].
  unfold bind, mapErr, modify.
  pose proof (collectLocked_spec p s) as S.
  destruct (collectLocked p s) as [r1 s1]. simpl in L, S. subst r1.
  destruct S as (_ & _ & SL & _ & _ & _ & record & SD & _). cbn [fst snd].
  destruct (reschedule_spec e p s1) as (D & Q & _). cbn zeta in D, Q.
  rewrite D, Q, SD, SL. unfold cacheRecord. simpl.
  rewrite (i64_in_range _ R).
  repeat split. apply enqueue_In.
Qed.

(** A tick handled at uptime 5 s, with the last collection at 0 and an
    interval of 1 s, schedules the next tick for uptime 1 s. *)
Lemma next_tick_deadline_witness :
  let r := processCollectionEvent sampleConstants BOOT_TIME pBoottime sampleLateTick in
  fst r = Ok tt /\
  lastCollectionUptime (deref pBoottime (snd r)) = 0 + 1000000000 /\
  interval (deref pBoottime (snd r)) = 1000000000 /\
  queue (mHandlerLooper (snd r))
  = enqueue (0 + 1000000000) (Collect BOOT_TIME) (queue (mHandlerLooper sampleLateTick)) /\
  In (0 + 1000000000, Collect BOOT_TIME) (queue (mHandlerLooper (snd r))) /\
  now (mHandlerLooper (snd r)) = 5000000000.
Proof.
  apply (next_tick_deadline sampleConstants BOOT_TIME pBoottime sampleLateTick).
  - reflexivity.
  - vm_compute. discriminate.
  - vm_compute. discriminate.
  - vm_compute. reflexivity.
  - vm_compute. split; discriminate.
Defined.

(** ** The collection cache *)

Lemma cacheRecord_records (record : IoPerfRecord) (info : CollectionInfo) :
  records (cacheRecord record info) =
  (if Z.of_nat (List.length (records info)) >? maxCacheSize info
   then tl (records info) else records info) ++ [record].
Proof. reflexivity. Qed.

(** Caching appends the record last and, when the cache already holds more
    than [maxCacheSize] records, drops exactly the oldest one. *)
Lemma cacheRecord_length (record : IoPerfRecord) (info : CollectionInfo) :
  0 <= maxCacheSize info ->
  List.length (records (cacheRecord record info)) =
  if Z.of_nat (List.length (records info)) >? maxCacheSize info
  then List.length (records info)
  else S (List.length (records info)).
Proof.
  intros C. rewrite cacheRecord_records.
  destruct (Z.gtb_spec (Z.of_nat (List.length (records info))) (maxCacheSize info)) as [G|G];
    rewrite length_app; simpl.
  - destruct (records info) as [|r rs]; simpl in *; lia.
  - lia.
Qed.


(** A cache that holds exactly [maxCacheSize] records grows past the bound
    on the next pass: nothing is evicted. *)
Lemma cacheRecord_overshoot (record : IoPerfRecord) (info : CollectionInfo) :
  Z.of_nat (List.length (records info)) = maxCacheSize info ->
  records (cacheRecord record info) = records info ++ [record] /\
  Z.of_nat (List.length (records (cacheRecord record info))) = maxCacheSize info + 1.
Proof.
  intros H. rewrite cacheRecord_length, cacheRecord_records by lia.
  destruct (Z.gtb_spec (Z.of_nat (List.length (records info))) (maxCacheSize info));
    [lia|].
  split; [reflexivity | lia].
Qed.

(** C1.  With the cache bound [kPeriodicCollectionBufferSize = 2], three
    periodic ticks leave three records in the periodic cache, one more than
    [maxCacheSize]: the bound is exceeded after the third append, and the
    fourth tick evicts the oldest record and leaves three again. *)
Theorem cache_holds_one_more_than_bound :
  let s3 := pollTimes sampleConstants 3 samplePeriodic in
  let s4 := pollTimes sampleConstants 4 samplePeriodic in
  mCurrCollectionEvent s3 = PERIODIC /\
  maxCacheSize (mPeriodicCollection s3) = 2 /\
  List.length (records (mPeriodicCollection s3)) = 3%nat /\
  List.length (records (mPeriodicCollection s4)) = 3%nat /\
  records (mPeriodicCollection s4) =
    tl (records (mPeriodicCollection s3)) ++ [last (records (mPeriodicCollection s4))
                                                (mkIoPerfRecord 0 emptyUidIoPerfData
                                                   emptySystemIoPerfData
                                                   emptyProcessIoPerfData)].
Proof. vm_compute. repeat split. Qed.

(** C3.  With [mTopNStatsPerCategory = 1] and a sample in which uid 7 only
    wrote (100 bytes) and read nothing, the reported [topNReads] holds uid 7
    with zero read bytes: an entry whose ranked metric is zero. *)
Theorem top_reads_lists_uid_without_reads :
  let s := started (newService writerOnlyUidIoStats disabledCollector disabledCollector 1) in
  let zeroReader := mkUidIoStat 0 "7" (0, 0) (0, 0) in
  (exists data, fst (collectUidIoPerfDataLocked s) = Ok data /\
                topNReads data = [zeroReader]) /\
  map (fun r => topNReads (uidIoPerfData r))
    (records (mBoottimeCollection (handleMessage sampleConstants (Collect BOOT_TIME) s)))
  = [[zeroReader]] /\
  ioStatKey zeroReader = 0.
Proof.
  simpl. split; [|split].
  - eexists. split; vm_compute; reflexivity.
  - vm_compute. reflexivity.
  - reflexivity.
Qed.

(** ** Sources that are disabled or fail to read *)

Lemma collectLocked_no_collector (p : InfoPtr) (s : State) :
  noCollectorEnabled s = true ->
  collectLocked p s = (Err (error NO_CODE "No collectors enabled"), s).
Proof.
  intros H. unfold collectLocked, bind, gets, fail. simpl. rewrite H. reflexivity.
Qed.

Lemma terminateFromHandler_spec (s : State) :
  mCurrCollectionEvent (terminateFromHandler s) = TERMINATED /\
  queue (mHandlerLooper (terminateFromHandler s)) = [] /\
  readCounts (terminateFromHandler s) = readCounts s /\
  forall q, deref q (terminateFromHandler s) = deref q s.
Proof. repeat split; try (intros []; reflexivity). Qed.

(** C2, as stated, fails.  A read failure of an enabled collector, with
    another collector enabled and working, terminates the service: the
    statement that every such tick caches a record and leaves the service
    running does not hold ([sampleReadFailure]). *)
Lemma read_failure_terminates :
  ~ (forall s : State,
       noCollectorEnabled s = false ->
       anySourceFails s = true ->
       mCurrCollectionEvent s = BOOT_TIME ->
       maxCacheSize (mBoottimeCollection s) <> 0 ->
       kMinCollectionInterval sampleConstants <= interval (mBoottimeCollection s) ->
       let s' := handleMessage sampleConstants (Collect BOOT_TIME) s in
       mCurrCollectionEvent s' <> TERMINATED /\
       records (mBoottimeCollection s') <> records (mBoottimeCollection s)).
Proof.
  intros H. specialize (H sampleReadFailure).
  assert (T : mCurrCollectionEvent
                (handleMessage sampleConstants (Collect BOOT_TIME) sampleReadFailure)
              = TERMINATED) by (vm_compute; reflexivity).
  destruct H as (H & _).
  - vm_compute. reflexivity.
  - vm_compute. reflexivity.
  - vm_compute. reflexivity.
  - vm_compute. discriminate.
  - vm_compute. discriminate.
  - apply H. exact T.
Qed.

(** C2 (amended).  On a tick for the current event with a valid
    configuration: a disabled collector is tolerated, that is, when at
    least one collector is enabled and every enabled one reads
    successfully, a record is cached in which the data of each disabled
    collector is left empty, and the service keeps running; when an
    enabled collector fails to read, or no collector is enabled, nothing is
    cached and the service is terminated. *)
Theorem tick_tolerates_disabled_sources (K : Constants) (e : CollectionEvent)
  (p : InfoPtr) (s : State) :
  collectionOf e = Some p ->
  mCurrCollectionEvent s = e ->
  maxCacheSize (deref p s) <> 0 ->
  kMinCollectionInterval K <= interval (deref p s) ->
  let s' := handleMessage K (Collect e) s in
  (noCollectorEnabled s = false -> anySourceFails s = false ->
   mCurrCollectionEvent s' = e /\ mCurrCollectionEvent s' <> TERMINATED /\
   exists record,
     records (deref p s') = records (cacheRecord record (deref p s)) /\
     (enabled (mProcStat s) = false -> systemIoPerfData record = emptySystemIoPerfData) /\
     (enabled (mProcPidStat s) = false ->
      processIoPerfData record = emptyProcessIoPerfData) /\
     (enabled (mUidIoStats s) = false -> uidIoPerfData record = emptyUidIoPerfData)) /\
  (anySourceFails s = true ->
   mCurrCollectionEvent s' = TERMINATED /\ records (deref p s') = records (deref p s)) /\
  (noCollectorEnabled s = true ->
   mCurrCollectionEvent s' = TERMINATED /\ records (deref p s') = records (deref p s) /\
   readCounts s' = readCounts s).
Proof.
  intros C M Z0 I s'. subst s'. rewrite (handleMessage_tick K e p s C).
  unfold processCollectionEvent.
  rewrite M, CollectionEvent_eqb_refl. cbn [negb].
  destruct (Z.eqb_spec (maxCacheSize (deref p s)) 0) as [?|_]; [contradiction|].
  destruct (Z.ltb_spec (interval (deref p s)) (kMinCollectionInterval K)); [lia|].
  unfold bind, mapErr, modify.
  pose proof (collectLocked_spec p s) as S.
  pose proof (collectLocked_no_collector p s) as N.
  destruct (collectLocked p s) as [[[]|err] s1]; cbn [fst snd] in S; cbn [finish].
  - destruct S as (A & _ & _ & _ & N0 & F0 & record & SD & _ & E1 & E2 & E3).
    destruct (reschedule_spec e p s1) as (D & _ & RM). cbn zeta in D.
    rewrite RM, D, A, M. cbn [records].
    split; [|split]; [| intros F; congruence | intros N1; congruence].
    intros _ _. split; [reflexivity|]. split.
    + destruct e; try discriminate; inversion C.
    + exists record. rewrite SD. repeat split; assumption.
  - destruct S as (_ & _ & _ & _ & [N1|F1] & SD);
      destruct (terminateFromHandler_spec s1) as (T & _ & RC & TD);
      rewrite T, TD, SD.
    + split; [intros N0; congruence|]. split; [auto|].
      intros _. specialize (N N1). injection N as _ <-.
      repeat split; try exact RC.
    + split; [intros _ F0; congruence|]. split; [auto|].
      intros N1. specialize (N N1). injection N as _ <-.
      repeat split; try exact RC.
Qed.

Lemma tick_tolerates_disabled_sources_witness :
  let s := sampleBootTime in
  let s' := handleMessage sampleConstants (Collect BOOT_TIME) s in
  mCurrCollectionEvent s' = BOOT_TIME /\ mCurrCollectionEvent s' <> TERMINATED /\
  exists record,
    records (deref pBoottime s') = records (cacheRecord record (deref pBoottime s)) /\
    (enabled (mProcStat s) = false -> systemIoPerfData record = emptySystemIoPerfData) /\
    (enabled (mProcPidStat s) = false ->
     processIoPerfData record = emptyProcessIoPerfData) /\
    (enabled (mUidIoStats s) = false -> uidIoPerfData record = emptyUidIoPerfData).
Proof.
  intros s s'.
  assert (C : collectionOf BOOT_TIME = Some pBoottime) by reflexivity.
  assert (M : mCurrCollectionEvent s = BOOT_TIME) by reflexivity.
  assert (Z0 : maxCacheSize (deref pBoottime s) <> 0) by (vm_compute; discriminate).
  assert (I : kMinCollectionInterval sampleConstants <= interval (deref pBoottime s))
    by (vm_compute; discriminate).
  apply (proj1 (tick_tolerates_disabled_sources sampleConstants BOOT_TIME pBoottime s
                  C M Z0 I)).
  - vm_compute. reflexivity.
  - vm_compute. reflexivity.
Defined.

(** ** A run of the service

    Two boot-time ticks, then [onBootFinished]: the boot-time cache holds
    exactly two records, showing uid 7 with 100 and then 300 bytes read,
    and the service is in periodic mode with one periodic tick pending. *)
Example boot_then_periodic :
  let s := snd (onBootFinished (pollTimes sampleConstants 2 sampleBootTime)) in
  mCurrCollectionEvent s = PERIODIC /\
  map (fun r => map bytes (topNReads (uidIoPerfData r))) (records (mBoottimeCollection s))
  = [[(100, 0)]; [(300, 0)]] /\
  queue (mHandlerLooper s) = [(now (mHandlerLooper s), Collect PERIODIC)].
Proof. vm_compute. repeat split. Qed.

(** A custom collection that is cut short by its guard message goes back
    to periodic mode with an empty custom cache. *)
Example custom_then_guard :
  let s := handleMessage sampleConstants (Switch END_CUSTOM_COLLECTION)
             (pollOnce sampleConstants sampleCustom) in
  List.length (records (mCustomCollection (pollOnce sampleConstants sampleCustom))) = 1%nat /\
  mCurrCollectionEvent s = PERIODIC /\
  records (mCustomCollection s) = [].
Proof. vm_compute. repeat split. Qed.


(** * Further properties of the code *)

(** ** The ranking scan keeps the largest entries *)

Section TopN.

Context {A : Type}.
Variable key : A -> Z.

Lemma removelast_or_last (l : list A) (d u : A) :
  In u l -> In u (removelast l) \/ u = last l d.
Proof.
  induction l as [|x [|z r] IH]; simpl; intros H.
  - contradiction.
  - destruct H as [H|[]]. right. symmetry. exact H.
  - destruct H as [H|H]; [left; left; exact H|].
    destruct (IH H) as [E|E]; [left; right; exact E | right; exact E].
Qed.

Lemma below_or_above (cur : A) (l : list A) :
  Exists (fun x => key x <= key cur) l \/ Forall (fun x => key cur < key x) l.
Proof.
  induction l as [|x r [IH|IH]].
  - right. constructor.
  - left. apply Exists_cons_tl. exact IH.
  - destruct (Z_le_gt_dec (key x) (key cur)) as [L|G].
    + left. apply Exists_cons_hd. exact L.
    + right. constructor; [lia | exact IH].
Qed.

Lemma accounted_insertTopN (cur u : A) (l : list A) :
  descending key l -> accounted key u l -> accounted key u (insertTopN key cur l).
Proof.
  intros D Hu. destruct (below_or_above cur l) as [E|F].
  - destruct (insertTopN_displaces_last key cur l E) as (pre & post & R & I & _).
    pose proof (descending_last_min key l cur D) as M.
    assert (Lc : key (last l cur) <= key cur).
    { apply Exists_exists in E. destruct E as (x & Hx & Lx).
      rewrite Forall_forall in M. specialize (M x Hx). lia. }
    assert (B : forall v, key v <= key (last l cur) ->
                          Forall (fun y => key v <= key y) (insertTopN key cur l)).
    { intros v Hv. apply Forall_forall. intros y Hy.
      destruct (insertTopN_In key cur l y Hy) as [->|Hy']; [lia|].
      rewrite Forall_forall in M. specialize (M y Hy'). lia. }
    destruct Hu as [Hu|Hu].
    + destruct (removelast_or_last l cur u Hu) as [Hr | ->].
      * left. rewrite I. rewrite R in Hr. apply in_app_or in Hr.
        apply in_or_app. destruct Hr; [left | right; right]; assumption.
      * right. apply B. lia.
    + right. apply B. destruct l as [|x r].
      * simpl in E. inversion E.
      * rewrite Forall_forall in Hu. apply Hu.
        clear. revert x. induction r as [|z r IH]; intros x; [left; reflexivity|].
        right. apply IH.
  - rewrite (insertTopN_rejects key cur l F). exact Hu.
Qed.

Lemma accounted_insertTopN_self (cur : A) (l : list A) :
  accounted key cur (insertTopN key cur l).
Proof.
  destruct (below_or_above cur l) as [E|F].
  - destruct (insertTopN_displaces_last key cur l E) as (pre & post & _ & I & _).
    left. rewrite I. apply in_or_app. right. left. reflexivity.
  - rewrite (insertTopN_rejects key cur l F). right.
    eapply Forall_impl; [|exact F]. simpl. intros; lia.
Qed.

(** The candidates after a whole sample: ordered, as many as at the start,
    drawn from the start list and the sample, and accounting for every
    entry of the sample. *)
Lemma rank_fold (input : list A) (top : list A) :
  descending key top ->
  let r := fold_left (fun t cur => insertTopN key cur t) input top in
  descending key r /\
  List.length r = List.length top /\
  (forall y, In y r -> In y top \/ In y input) /\
  (forall u, In u input \/ accounted key u top -> accounted key u r).
Proof.
  revert top. induction input as [|cur rest IH]; intros top D; simpl.
  - repeat split; auto. intros u [[]|H]; exact H.
  - destruct (IH (insertTopN key cur top) (insertTopN_descending key cur top D))
      as (D' & L' & M' & O').
    rewrite insertTopN_length in L'.
    repeat split; auto.
    + intros y Hy. destruct (M' y Hy) as [H|H]; [|right; right; exact H].
      destruct (insertTopN_In key cur top y H) as [->|H']; [right; left; reflexivity|].
      left. exact H'.
    + intros u [[<-|H]|H]; apply O'.
      * right. apply accounted_insertTopN_self.
      * left. exact H.
      * right. apply accounted_insertTopN; assumption.
Qed.

End TopN.

(** ** Placeholders stay behind the entries of the sample *)

Section Padded.

Context {A : Type}.
Variable key : A -> Z.
Variable pad : A.

Lemma removelast_padded (l : list A) (k : nat) :
  removelast (l ++ repeat pad (S k)) = l ++ repeat pad k.
Proof.
  rewrite removelast_app by discriminate. f_equal.
  induction k as [|k IH]; [reflexivity|].
  change (repeat pad (S (S k))) with (pad :: repeat pad (S k)).
  change (removelast (pad :: repeat pad (S k)))
    with (pad :: removelast (repeat pad (S k))).
  rewrite IH. reflexivity.
Qed.

Lemma insertTopN_cons (cur x : A) (rest : list A) :
  insertTopN key cur (x :: rest) =
  if key x >? key cur then x :: insertTopN key cur rest
  else cur :: removelast (x :: rest).
Proof. reflexivity. Qed.

(** While a placeholder is left, a candidate that ranks no lower than the
    placeholder enters among the entries and a placeholder leaves. *)
Lemma insertTopN_padded (cur : A) (real : list A) (k : nat) :
  key pad <= key cur ->
  exists pre post,
    real = pre ++ post /\
    insertTopN key cur (real ++ repeat pad (S k)) = (pre ++ cur :: post) ++ repeat pad k.
Proof.
  intros Hc. induction real as [|x r IH].
  - exists [], []. split; [reflexivity|].
    change ([] ++ repeat pad (S k)) with (pad :: repeat pad k).
    rewrite insertTopN_cons. destruct (Z.gtb_spec (key pad) (key cur)); [lia|].
    change (pad :: repeat pad k) with ([] ++ repeat pad (S k)).
    rewrite removelast_padded. reflexivity.
  - change ((x :: r) ++ repeat pad (S k)) with (x :: (r ++ repeat pad (S k))).
    rewrite insertTopN_cons. destruct (key x >? key cur).
    + destruct IH as (pre & post & E & I).
      exists (x :: pre), post. split; [simpl; f_equal; exact E|].
      rewrite I. reflexivity.
    + exists [], (x :: r). split; [reflexivity|].
      change (x :: r ++ repeat pad (S k)) with ((x :: r) ++ repeat pad (S k)).
      rewrite removelast_padded. reflexivity.
Qed.

Variable stop : A -> bool.
Hypothesis stop_pad : stop pad = true.

Lemma takeUntil_padded (real : list A) (k : nat) :
  Forall (fun a => stop a = false) real ->
  takeUntil stop (real ++ repeat pad k) = real.
Proof.
  induction 1 as [|x r Hx Hr IH]; simpl.
  - destruct k; simpl; [reflexivity|]. rewrite stop_pad. reflexivity.
  - rewrite Hx, IH. reflexivity.
Qed.

(** After any sample of entries that are no placeholders, the candidates
    are entries followed by placeholders only. *)
Lemma rank_padded (input real : list A) (k : nat) :
  Forall (fun a => key pad <= key a /\ stop a = false) input ->
  Forall (fun a => stop a = false) real ->
  exists real' k',
    fold_left (fun t cur => insertTopN key cur t) input (real ++ repeat pad k)
    = real' ++ repeat pad k' /\
    Forall (fun a => stop a = false) real' /\
    ((List.length input <= k)%nat ->
     k' = (k - List.length input)%nat /\ Permutation real' (real ++ input)).
Proof.
  intros Hin. revert real k.
  induction Hin as [|cur rest [Hk Hs] Hrest IH]; intros real k Hreal; simpl.
  - exists real, k. repeat split; auto.
    + lia.
    + rewrite app_nil_r. apply Permutation_refl.
  - destruct k as [|k].
    + assert (F : Forall (fun a => stop a = false) (insertTopN key cur real)).
      { apply Forall_forall. intros y Hy.
        destruct (insertTopN_In key cur real y Hy) as [->|H]; [exact Hs|].
        rewrite Forall_forall in Hreal. apply Hreal. exact H. }
      simpl repeat. rewrite app_nil_r.
      destruct (IH (insertTopN key cur real) 0%nat F) as (real' & k' & E & F' & _).
      simpl in E. rewrite app_nil_r in E.
      exists real', k'. repeat split; auto; lia.
    + destruct (insertTopN_padded cur real k Hk) as (pre & post & R & I).
      rewrite I.
      assert (F : Forall (fun a => stop a = false) (pre ++ cur :: post)).
      { subst real. apply Forall_app in Hreal. destruct Hreal as (F1 & F2).
        apply Forall_app. split; [exact F1 | constructor; assumption]. }
      destruct (IH (pre ++ cur :: post) k F) as (real' & k' & E & F' & P).
      exists real', k'. repeat split; auto.
      * destruct P as (P1 & _); [lia|]. lia.
      * destruct P as (_ & P2); [lia|].
        eapply Permutation_trans; [exact P2|].
        subst real. rewrite <- !app_assoc. apply Permutation_app_head.
        simpl. apply (Permutation_middle post rest cur).
Qed.

End Padded.


(** ** Maps as association lists *)

Section MapFacts.

Context {T : Type}.

Lemma mapFind_In (k : Z) (v : T) (m : list (Z * T)) :
  mapFind k m = Some v -> In (k, v) m.
Proof.
  induction m as [|[k' v'] r IH]; simpl; [discriminate|].
  destruct (Z.eqb_spec k' k) as [->|N].
  - intros H. injection H as ->. left. reflexivity.
  - intros H. right. apply IH. exact H.
Qed.

Lemma mapFind_None (k : Z) (m : list (Z * T)) :
  mapFind k m = None -> ~ In k (map fst m).
Proof.
  induction m as [|[k' v'] r IH]; simpl; [tauto|].
  destruct (Z.eqb_spec k' k) as [->|N]; [discriminate|].
  intros H [E|E]; [contradiction | exact (IH H E)].
Qed.

Lemma mapFind_key (k : Z) (m : list (Z * T)) :
  In k (map fst m) -> exists v, mapFind k m = Some v.
Proof.
  destruct (mapFind k m) as [v|] eqn:E; [eexists; reflexivity|].
  intros H. destruct (mapFind_None k m E H).
Qed.

Lemma mapSet_keys (k : Z) (v : T) (m : list (Z * T)) :
  map fst (mapSet k v m) =
  match mapFind k m with
  | Some _ => map fst m
  | None => map fst m ++ [k]
  end.
Proof.
  induction m as [|[k' v'] r IH]; simpl; [reflexivity|].
  destruct (Z.eqb_spec k' k) as [->|N]; simpl; [reflexivity|].
  rewrite IH. destruct (mapFind k r); reflexivity.
Qed.

Lemma mapSet_NoDup (k : Z) (v : T) (m : list (Z * T)) :
  NoDup (map fst m) -> NoDup (map fst (mapSet k v m)).
Proof.
  intros H. rewrite mapSet_keys. destruct (mapFind k m) eqn:E; [exact H|].
  apply NoDup_app; [exact H | constructor; [tauto | constructor] |].
  intros x Hx [<-|[]]. exact (mapFind_None k m E Hx).
Qed.

Lemma mapSet_In (k : Z) (v : T) (m : list (Z * T)) (x : Z * T) :
  In x (mapSet k v m) -> x = (k, v) \/ In x m.
Proof.
  induction m as [|[k' v'] r IH]; simpl.
  - intros [H|[]]. left. symmetry. exact H.
  - destruct (k' =? k); simpl; intros [H|H]; auto.
    destruct (IH H); auto.
Qed.

Lemma mapFind_mapSet_same (k : Z) (v : T) (m : list (Z * T)) :
  mapFind k (mapSet k v m) = Some v.
Proof.
  induction m as [|[k' v'] r IH]; simpl.
  - rewrite Z.eqb_refl. reflexivity.
  - destruct (Z.eqb_spec k' k) as [->|N]; simpl.
    + rewrite Z.eqb_refl. reflexivity.
    + destruct (Z.eqb_spec k' k); [contradiction | exact IH].
Qed.

Lemma mapFind_mapSet_other (k k' : Z) (v : T) (m : list (Z * T)) :
  k' <> k -> mapFind k' (mapSet k v m) = mapFind k' m.
Proof.
  intros N. induction m as [|[k0 v0] r IH]; simpl.
  - destruct (Z.eqb_spec k k'); [congruence | reflexivity].
  - destruct (Z.eqb_spec k0 k) as [->|N0]; simpl.
    + destruct (Z.eqb_spec k k'); [congruence | reflexivity].
    + rewrite IH. reflexivity.
Qed.

Lemma sumOver_mapSet (f : T -> Z) (k : Z) (v : T) (m : list (Z * T)) :
  sumOver f (mapSet k v m) =
  sumOver f m + f v - match mapFind k m with Some c => f c | None => 0 end.
Proof.
  unfold sumOver. induction m as [|[k' v'] r IH]; simpl; [lia|].
  destruct (k' =? k); simpl; [lia|]. rewrite IH. lia.
Qed.

Lemma sumOver_member (f : T -> Z) (k : Z) (c : T) (m : list (Z * T)) :
  Forall (fun kv => 0 <= f (snd kv)) m -> mapFind k m = Some c -> f c <= sumOver f m.
Proof.
  unfold sumOver. induction 1 as [|[k' v'] r Hx Hr IH]; simpl; [discriminate|].
  assert (S : 0 <= fold_right (fun kv acc => f (snd kv) + acc) 0 r).
  { clear IH. induction Hr as [|y r' Hy _ IHr]; simpl; lia. }
  simpl in Hx. destruct (k' =? k).
  - intros H. injection H as ->. lia.
  - intros H. specialize (IH H). lia.
Qed.

End MapFacts.

(** ** Aggregation of process statistics per UID *)

Lemma u64_range (z : Z) : 0 <= u64 z < UINT64_MOD.
Proof. unfold u64, UINT64_MOD. apply Z.mod_pos_bound. lia. Qed.

Lemma u32_range (z : Z) : 0 <= u32 z < UINT32_MOD.
Proof. unfold u32, UINT32_MOD. apply Z.mod_pos_bound. lia. Qed.

Lemma u64_absorb (a b : Z) : u64 (a + u64 b) = u64 (a + b).
Proof. unfold u64. apply Zplus_mod_idemp_r. Qed.

Lemma countIoBlocked_bounds (ths : list (Z * PidStat)) :
  0 <= countIoBlocked ths <= Z.of_nat (List.length ths).
Proof.
  unfold countIoBlocked.
  assert (G : forall acc,
            acc <= fold_left (fun a th => a + (if String.eqb (state (snd th)) "D"
                                               then 1 else 0)) ths acc
            <= acc + Z.of_nat (List.length ths)).
  { induction ths as [|th r IH]; intros acc; simpl List.length; simpl fold_left; [lia|].
    specialize (IH (acc + (if String.eqb (state (snd th)) "D" then 1 else 0))).
    destruct (String.eqb (state (snd th)) "D"); lia. }
  specialize (G 0). lia.
Qed.

Lemma addProcessStats_step (m : list (Z * UidProcessStats)) (p : ProcessStats) :
  NoDup (map fst m) ->
  (forall k e, In (k, e) m -> ups_uid e = k) ->
  let m1 := addProcessStats m p in
  NoDup (map fst m1) /\
  (forall k e, In (k, e) m1 ->
     ups_uid e = k /\ (In k (map fst m) \/ (0 <= ps_uid p /\ k = u32 (ps_uid p)))) /\
  (forall k, In k (map fst m) -> In k (map fst m1)) /\
  (0 <= ps_uid p -> In (u32 (ps_uid p)) (map fst m1)).
Proof.
  intros ND U. unfold addProcessStats.
  destruct (Z.ltb_spec (ps_uid p) 0) as [Neg|Pos]; cbn zeta.
  - split; [exact ND|]. split; [|split; [auto | lia]].
    intros k e H. split; [apply (U k e H)|].
    left. apply (in_map fst m (k, e) H).
  - set (uid := u32 (ps_uid p)).
    assert (C : ups_uid (match mapFind uid m with
                         | Some c => c
                         | None => mkUidProcessStats uid 0 0 0
                         end) = uid).
    { destruct (mapFind uid m) as [c|] eqn:E; [|reflexivity].
      apply (U uid c). apply mapFind_In. exact E. }
    split; [|split; [|split]].
    + apply mapSet_NoDup. exact ND.
    + intros k e H. apply mapSet_In in H. destruct H as [H|H].
      * injection H as -> ->. split; [exact C|].
        right. split; [exact Pos | reflexivity].
      * split; [apply (U k e H)|]. left. apply (in_map fst m (k, e) H).
    + intros k H. rewrite mapSet_keys. destruct (mapFind uid m); [exact H|].
      apply in_or_app. left. exact H.
    + intros _. rewrite mapSet_keys. destruct (mapFind uid m) as [c|] eqn:E.
      * apply (in_map fst m (uid, c)). apply mapFind_In. exact E.
      * apply in_or_app. right. left. reflexivity.
Qed.

Lemma addProcessStats_fold (processStats : list ProcessStats)
  (m0 : list (Z * UidProcessStats)) :
  NoDup (map fst m0) ->
  (forall k e, In (k, e) m0 -> ups_uid e = k) ->
  let m := fold_left addProcessStats processStats m0 in
  NoDup (map fst m) /\
  (forall k e, In (k, e) m ->
     ups_uid e = k /\
     (In k (map fst m0) \/
      exists p, In p processStats /\ 0 <= ps_uid p /\ k = u32 (ps_uid p))) /\
  (forall k, In k (map fst m0) -> In k (map fst m)) /\
  (forall p, In p processStats -> 0 <= ps_uid p -> In (u32 (ps_uid p)) (map fst m)).
Proof.
  revert m0. induction processStats as [|p rest IH]; intros m0 ND U; simpl.
  - split; [exact ND|]. split; [|split; [auto | intros p []]].
    intros k e H. split; [apply (U k e H)|].
    left. apply (in_map fst m0 (k, e) H).
  - destruct (addProcessStats_step m0 p ND U) as (ND1 & U1 & K1 & P1).
    destruct (IH (addProcessStats m0 p) ND1 (fun k e H => proj1 (U1 k e H)))
      as (ND2 & U2 & K2 & P2).
    split; [exact ND2|]. split; [|split].
    + intros k e H. split; [apply (U2 k e H)|].
      destruct (U2 k e H) as (_ & [Hk|(q & Hq & Hpos & ->)]).
      * apply in_map_iff in Hk. destruct Hk as ([k' e'] & <- & Hin).
        destruct (U1 k' e' Hin) as (_ & [Hk|(Hpos & ->)]); [left; exact Hk|].
        right. exists p. split; [left; reflexivity|]. split; [exact Hpos | reflexivity].
      * right. exists q. split; [right; exact Hq|]. split; [exact Hpos | reflexivity].
    + intros k H. apply K2, K1. exact H.
    + intros q [<-|Hq] Hpos; [apply K2, P1; exact Hpos | apply P2; assumption].
Qed.

(** X9.  [getUidProcessStats] yields one entry per UID: the keys are
    pairwise distinct, every entry carries its key as uid and stems from a
    process with a non-negative uid, and every such process has its UID
    among the keys; processes with a negative uid leave no trace. *)
Theorem getUidProcessStats_one_entry_per_uid (processStats : list ProcessStats) :
  let m := getUidProcessStats processStats in
  NoDup (map fst m) /\
  (forall k e, In (k, e) m ->
     ups_uid e = k /\
     exists p, In p processStats /\ 0 <= ps_uid p /\ k = u32 (ps_uid p)) /\
  (forall p, In p processStats -> 0 <= ps_uid p ->
     exists e, mapFind (u32 (ps_uid p)) m = Some e).
Proof.
  destruct (addProcessStats_fold processStats [] (NoDup_nil Z))
    as (ND & U & _ & P); [intros k e []|].
  fold (getUidProcessStats processStats) in ND, U, P.
  split; [exact ND|]. split.
  - intros k e H. split; [apply (U k e H)|].
    destruct (U k e H) as (_ & [[]|E]). exact E.
  - intros p Hp Hpos. apply mapFind_key. apply P; assumption.
Qed.

Lemma Forall_mapSet {T} (P : Z * T -> Prop) (k : Z) (v : T) (m : list (Z * T)) :
  Forall P m -> P (k, v) -> Forall P (mapSet k v m).
Proof.
  intros F Hv. apply Forall_forall. intros x Hx.
  destruct (mapSet_In k v m x Hx) as [->|H]; [exact Hv|].
  rewrite Forall_forall in F. apply F. exact H.
Qed.

Lemma addProcessStats_counts (m : list (Z * UidProcessStats)) (p : ProcessStats) :
  Forall (fun kv => 0 <= ioBlockedTasksCnt (snd kv) <= totalTasksCnt (snd kv)) m ->
  sumOver totalTasksCnt m + tasksOf p < UINT32_MOD ->
  Forall (fun kv => 0 <= ioBlockedTasksCnt (snd kv) <= totalTasksCnt (snd kv))
    (addProcessStats m p) /\
  sumOver totalTasksCnt (addProcessStats m p) = sumOver totalTasksCnt m + tasksOf p.
Proof.
  intros F B. unfold addProcessStats, tasksOf in *.
  destruct (Z.ltb_spec (ps_uid p) 0) as [Neg|Pos]; cbn zeta; [split; [exact F | lia]|].
  set (uid := u32 (ps_uid p)).
  pose proof (countIoBlocked_bounds (threads p)) as CB.
  assert (F0 : Forall (fun kv => 0 <= totalTasksCnt (snd kv)) m).
  { eapply Forall_impl; [|exact F]. simpl. intros; lia. }
  assert (S0 : 0 <= sumOver totalTasksCnt m).
  { clear - F0. unfold sumOver. induction F0; simpl; lia. }
  rewrite sumOver_mapSet. cbn [totalTasksCnt].
  destruct (mapFind uid m) as [c|] eqn:E.
  - pose proof (sumOver_member totalTasksCnt uid c m F0 E) as Mc.
    assert (Rc : 0 <= ioBlockedTasksCnt c <= totalTasksCnt c).
    { rewrite Forall_forall in F. apply (F (uid, c)). apply mapFind_In. exact E. }
    unfold u32, UINT32_MOD in *. rewrite !Z.mod_small by lia.
    split; [|lia]. apply Forall_mapSet; [exact F|].
    cbn [snd ioBlockedTasksCnt totalTasksCnt]. lia.
  - cbn [totalTasksCnt ioBlockedTasksCnt].
    unfold u32, UINT32_MOD in *. rewrite !Z.mod_small by lia.
    split; [|lia]. apply Forall_mapSet; [exact F|].
    cbn [snd ioBlockedTasksCnt totalTasksCnt]. lia.
Qed.

Lemma threadCount_nonneg (processStats : list ProcessStats) : 0 <= threadCount processStats.
Proof.
  unfold threadCount. induction processStats as [|p r IH]; simpl; [lia|].
  destruct (ps_uid p <? 0); lia.
Qed.

Lemma addProcessStats_counts_fold (processStats : list ProcessStats)
  (m0 : list (Z * UidProcessStats)) :
  Forall (fun kv => 0 <= ioBlockedTasksCnt (snd kv) <= totalTasksCnt (snd kv)) m0 ->
  sumOver totalTasksCnt m0 + threadCount processStats < UINT32_MOD ->
  let m := fold_left addProcessStats processStats m0 in
  Forall (fun kv => 0 <= ioBlockedTasksCnt (snd kv) <= totalTasksCnt (snd kv)) m /\
  sumOver totalTasksCnt m = sumOver totalTasksCnt m0 + threadCount processStats.
Proof.
  revert m0. induction processStats as [|p rest IH]; intros m0 F B; simpl.
  - split; [exact F | simpl in B; lia].
  - pose proof (threadCount_nonneg rest) as NN.
    change (threadCount (p :: rest)) with (tasksOf p + threadCount rest) in B.
    destruct (addProcessStats_counts m0 p F) as (F1 & S1); [lia|].
    destruct (IH (addProcessStats m0 p) F1) as (F2 & S2); [lia|].
    split; [exact F2|]. rewrite S2, S1. unfold tasksOf. lia.
Qed.

(** X10.  As long as the threads of the sample number fewer than 2^32, no
    counter wraps: every UID has at most as many I/O-blocked tasks as it
    has tasks, and the task counts of all UIDs add up to the number of
    threads of the processes with a non-negative uid. *)
Theorem getUidProcessStats_blocked_within_tasks (processStats : list ProcessStats) :
  threadCount processStats < UINT32_MOD ->
  let m := getUidProcessStats processStats in
  Forall (fun kv => 0 <= ioBlockedTasksCnt (snd kv) <= totalTasksCnt (snd kv)) m /\
  sumOver totalTasksCnt m = threadCount processStats.
Proof.
  intros B.
  destruct (addProcessStats_counts_fold processStats [] (Forall_nil _)) as (F & S);
    [simpl; exact B|].
  split; [exact F | exact S].
Qed.

Lemma getUidProcessStats_blocked_within_tasks_witness :
  let m := getUidProcessStats sampleProcessStats in
  Forall (fun kv => 0 <= ioBlockedTasksCnt (snd kv) <= totalTasksCnt (snd kv)) m /\
  sumOver totalTasksCnt m = threadCount sampleProcessStats.
Proof.
  apply (getUidProcessStats_blocked_within_tasks sampleProcessStats).
  vm_compute. reflexivity.
Defined.

Lemma addProcessStats_range (processStats : list ProcessStats)
  (m0 : list (Z * UidProcessStats)) :
  Forall (fun kv => 0 <= ioBlockedTasksCnt (snd kv) /\ 0 <= majorFaults (snd kv)) m0 ->
  Forall (fun kv => 0 <= ioBlockedTasksCnt (snd kv) /\ 0 <= majorFaults (snd kv))
    (fold_left addProcessStats processStats m0).
Proof.
  revert m0. induction processStats as [|p rest IH]; intros m0 F; simpl; [exact F|].
  apply IH. unfold addProcessStats. destruct (ps_uid p <? 0); [exact F|]. cbn zeta.
  apply Forall_mapSet; [exact F|]. simpl.
  split; [apply u32_range | apply u64_range].
Qed.

Lemma addProcessStats_faults (processStats : list ProcessStats)
  (m0 : list (Z * UidProcessStats)) :
  u64 (sumOver majorFaults (fold_left addProcessStats processStats m0)) =
  u64 (sumOver majorFaults m0 + faultCount processStats).
Proof.
  revert m0. induction processStats as [|p rest IH]; intros m0; simpl.
  - f_equal. lia.
  - rewrite IH. unfold addProcessStats.
    destruct (ps_uid p <? 0); [f_equal; lia|]. cbn zeta.
    rewrite sumOver_mapSet. cbn [majorFaults].
    set (d := pid_majorFaults (process p)).
    destruct (mapFind (u32 (ps_uid p)) m0) as [c|].
    + replace (sumOver majorFaults m0 + u64 (majorFaults c + d) - majorFaults c
               + faultCount rest)
        with ((sumOver majorFaults m0 - majorFaults c + faultCount rest)
              + u64 (majorFaults c + d)) by lia.
      rewrite u64_absorb. f_equal. lia.
    + simpl majorFaults.
      replace (sumOver majorFaults m0 + u64 (0 + d) - 0 + faultCount rest)
        with ((sumOver majorFaults m0 + faultCount rest) + u64 (0 + d)) by lia.
      rewrite u64_absorb. f_equal. lia.
Qed.

Lemma processScan_total (mapping : list (Z * string))
  (stats : list (Z * UidProcessStats)) (acc : ProcessScan) :
  0 <= ps_totalMajorFaults acc < UINT64_MOD ->
  ps_totalMajorFaults (fold_left (processScanStep mapping) stats acc) =
  u64 (ps_totalMajorFaults acc + sumOver majorFaults stats).
Proof.
  revert acc. induction stats as [|kv rest IH]; intros acc R; simpl.
  - unfold u64, UINT64_MOD in *. rewrite Z.add_0_r, Z.mod_small; lia.
  - rewrite IH by (simpl; apply u64_range). simpl.
    rewrite Z.add_comm, u64_absorb. f_equal. lia.
Qed.

(** ** What the ranked lists of a sample contain *)

Lemma uidScan_lists (mapping : list (Z * string)) (usage : list (Z * UidIoUsage))
  (acc : UidScan) :
  us_topNReads (fold_left (uidScanStep mapping) usage acc) =
    fold_left (fun t cur => insertTopN readKey cur t) (activeUsages usage)
      (us_topNReads acc) /\
  us_topNWrites (fold_left (uidScanStep mapping) usage acc) =
    fold_left (fun t cur => insertTopN writeKey cur t) (activeUsages usage)
      (us_topNWrites acc).
Proof.
  revert acc. unfold activeUsages.
  induction usage as [|[k u] rest IH]; intros acc; simpl; [split; reflexivity|].
  change (usageIsZero u) with (isZero (ios u)).
  unfold uidScanStep at 2 4. cbn [snd].
  destruct (isZero (ios u)); cbn [negb fold_left]; apply IH.
Qed.

Lemma processScan_lists (mapping : list (Z * string))
  (stats : list (Z * UidProcessStats)) (acc : ProcessScan) :
  ps_topNIoBlockedUids (fold_left (processScanStep mapping) stats acc) =
    fold_left (fun t cur => insertTopN ioBlockedTasksCnt cur t) (map snd stats)
      (ps_topNIoBlockedUids acc) /\
  ps_topNMajorFaults (fold_left (processScanStep mapping) stats acc) =
    fold_left (fun t cur => insertTopN majorFaults cur t) (map snd stats)
      (ps_topNMajorFaults acc).
Proof.
  revert acc. induction stats as [|kv rest IH]; intros acc; simpl; [split; reflexivity|].
  apply IH.
Qed.

Lemma readKey_nonneg (u : UidIoUsage) : readKey tempUsage <= readKey u.
Proof.
  change (readKey tempUsage) with 0. unfold readKey, sumReadBytes.
  apply u64_range.
Qed.

Lemma writeKey_nonneg (u : UidIoUsage) : writeKey tempUsage <= writeKey u.
Proof.
  change (writeKey tempUsage) with 0. unfold writeKey, sumWriteBytes.
  apply u64_range.
Qed.

Lemma activeUsages_spec (usage : list (Z * UidIoUsage)) (key : UidIoUsage -> Z) :
  (forall u, key tempUsage <= key u) ->
  Forall (fun a => key tempUsage <= key a /\ usageIsZero a = false) (activeUsages usage).
Proof.
  intros K. apply Forall_forall. intros u Hu. unfold activeUsages in Hu.
  apply filter_In in Hu. destruct Hu as (_ & Hz).
  split; [apply K | apply negb_true_iff; exact Hz].
Qed.

(** The read candidates of a sample are reported entries followed by
    placeholders; the reported ones are the candidates that are no
    placeholder. *)
Lemma uid_ranked_shape (key : UidIoUsage -> Z) (n : nat) (usage : list (Z * UidIoUsage)) :
  (forall u, key tempUsage <= key u) ->
  let top := fold_left (fun t cur => insertTopN key cur t) (activeUsages usage)
               (repeat tempUsage n) in
  exists k', top = takeUntil usageIsZero top ++ repeat tempUsage k' /\
             Forall (fun a => usageIsZero a = false) (takeUntil usageIsZero top) /\
             ((List.length (activeUsages usage) <= n)%nat ->
              Permutation (takeUntil usageIsZero top) (activeUsages usage)).
Proof.
  intros K top.
  destruct (rank_padded key tempUsage usageIsZero (activeUsages usage) [] n
              (activeUsages_spec usage key K) (Forall_nil _))
    as (real' & k' & E & F & P).
  simpl in E. fold top in E.
  assert (T : takeUntil usageIsZero top = real').
  { rewrite E. apply (takeUntil_padded tempUsage usageIsZero eq_refl). exact F. }
  exists k'. rewrite T. split; [exact E|]. split; [exact F|].
  intros L. destruct (P L) as (_ & P2). exact P2.
Qed.

Lemma uid_ranked_accounts (key : UidIoUsage -> Z) (n : nat)
  (usage : list (Z * UidIoUsage)) (u : UidIoUsage) :
  (forall a, key tempUsage <= key a) ->
  In u (activeUsages usage) ->
  accounted key u
    (takeUntil usageIsZero
       (fold_left (fun t cur => insertTopN key cur t) (activeUsages usage)
          (repeat tempUsage n))).
Proof.
  intros K Hu.
  destruct (rank_fold key (activeUsages usage) (repeat tempUsage n)
              (repeat_descending key tempUsage n)) as (_ & _ & _ & O).
  specialize (O u (or_introl Hu)).
  destruct (uid_ranked_shape key n usage K) as (k' & E & F & _).
  remember (takeUntil usageIsZero
              (fold_left (fun t cur => insertTopN key cur t) (activeUsages usage)
                 (repeat tempUsage n))) as T.
  rewrite E in O. destruct O as [O|O].
  - apply in_app_or in O. destruct O as [O|O]; [left; exact O|].
    apply repeat_spec in O. subst u.
    unfold activeUsages in Hu. apply filter_In in Hu. destruct Hu as (_ & Hz).
    discriminate Hz.
  - right. apply Forall_app in O. exact (proj1 O).
Qed.

(** X3.  The read and write lists hold the largest active usages of the
    sample: a UID with I/O that is missing from a reported list has a
    metric no larger than every entry of that list. *)
Theorem uid_lists_hold_the_largest (mapping : list (Z * string)) (n : nat)
  (usage : list (Z * UidIoUsage)) (u : UidIoUsage) :
  In u (activeUsages usage) ->
  let scan := uidScan mapping n usage in
  accounted readKey u (reportedReads scan) /\
  accounted writeKey u (reportedWrites scan).
Proof.
  intros Hu scan. subst scan. unfold reportedReads, reportedWrites, uidScan.
  destruct (uidScan_lists mapping usage
              (mkUidScan [] zeroIoUsage (repeat tempUsage n) (repeat tempUsage n)))
    as (-> & ->).
  split.
  - apply (uid_ranked_accounts readKey n usage u readKey_nonneg Hu).
  - apply (uid_ranked_accounts writeKey n usage u writeKey_nonneg Hu).
Qed.

Lemma uid_lists_hold_the_largest_witness :
  let scan := uidScan [] 2 sampleUsage in
  accounted readKey (snd (writerUsage 8 50)) (reportedReads scan) /\
  accounted writeKey (snd (writerUsage 8 50)) (reportedWrites scan).
Proof.
  apply (uid_lists_hold_the_largest [] 2 sampleUsage (snd (writerUsage 8 50))).
  vm_compute. right. left. reflexivity.
Defined.

(** X5.  When at most [n] UIDs of the sample show I/O, both reported lists
    hold exactly these UIDs, each once, whatever their read or write
    metric. *)
Theorem uid_lists_complete (mapping : list (Z * string)) (n : nat)
  (usage : list (Z * UidIoUsage)) :
  (List.length (activeUsages usage) <= n)%nat ->
  let scan := uidScan mapping n usage in
  Permutation (reportedReads scan) (activeUsages usage) /\
  Permutation (reportedWrites scan) (activeUsages usage).
Proof.
  intros L scan. subst scan. unfold reportedReads, reportedWrites, uidScan.
  destruct (uidScan_lists mapping usage
              (mkUidScan [] zeroIoUsage (repeat tempUsage n) (repeat tempUsage n)))
    as (-> & ->).
  split.
  - destruct (uid_ranked_shape readKey n usage readKey_nonneg) as (_ & _ & _ & P).
    apply P. exact L.
  - destruct (uid_ranked_shape writeKey n usage writeKey_nonneg) as (_ & _ & _ & P).
    apply P. exact L.
Qed.

Lemma uid_lists_complete_witness :
  let scan := uidScan [] 5 sampleUsage in
  Permutation (reportedReads scan) (activeUsages sampleUsage) /\
  Permutation (reportedWrites scan) (activeUsages sampleUsage).
Proof.
  apply (uid_lists_complete [] 5 sampleUsage). vm_compute. lia.
Defined.

Lemma ranked_members {A} (key : A -> Z) (pad : A) (stop : A -> bool) (n : nat)
  (input : list A) (y : A) :
  stop pad = true ->
  In y (takeUntil stop (fold_left (fun t cur => insertTopN key cur t) input
                          (repeat pad n))) ->
  In y input /\ stop y = false.
Proof.
  intros Sp Hy.
  assert (Hs : stop y = false).
  { pose proof (takeUntil_not_stop stop
                  (fold_left (fun t cur => insertTopN key cur t) input (repeat pad n)))
      as F.
    rewrite Forall_forall in F. apply F. exact Hy. }
  split; [|exact Hs].
  apply (takeUntil_In key) in Hy.
  destruct (rank_fold key input (repeat pad n) (repeat_descending key pad n))
    as (_ & _ & M & _).
  destruct (M y Hy) as [H|H]; [|exact H].
  apply repeat_spec in H. subst y. congruence.
Qed.

(** X6.  Every reported entry stems from the sample: the read and write
    lists hold only UIDs of the sample that show I/O, the I/O-blocked and
    major-fault lists only UIDs of the sample whose count is not zero; a
    placeholder is never reported. *)
Theorem reported_entries_stem_from_sample (mapping : list (Z * string)) (n : nat)
  (usage : list (Z * UidIoUsage)) (stats : list (Z * UidProcessStats)) :
  let us := uidScan mapping n usage in
  let ps := processScan mapping n stats in
  (forall y, In y (reportedReads us) -> In y (activeUsages usage)) /\
  (forall y, In y (reportedWrites us) -> In y (activeUsages usage)) /\
  (forall y, In y (reportedIoBlocked ps) ->
     In y (map snd stats) /\ ioBlockedTasksCnt y <> 0) /\
  (forall y, In y (reportedMajorFaults ps) ->
     In y (map snd stats) /\ majorFaults y <> 0).
Proof.
  intros us ps. subst us ps.
  unfold reportedReads, reportedWrites, reportedIoBlocked, reportedMajorFaults,
    uidScan, processScan.
  destruct (uidScan_lists mapping usage
              (mkUidScan [] zeroIoUsage (repeat tempUsage n) (repeat tempUsage n)))
    as (-> & ->).
  destruct (processScan_lists mapping stats
              (mkProcessScan [] 0 (repeat temp n) (repeat temp n)))
    as (-> & ->).
  cbn [us_topNReads us_topNWrites ps_topNIoBlockedUids ps_topNMajorFaults].
  split; [|split; [|split]]; intros y H.
  - apply (ranked_members readKey tempUsage usageIsZero n _ y eq_refl H).
  - apply (ranked_members writeKey tempUsage usageIsZero n _ y eq_refl H).
  - destruct (ranked_members ioBlockedTasksCnt temp _ n _ y eq_refl H) as (I & Z0).
    split; [exact I | apply Z.eqb_neq; exact Z0].
  - destruct (ranked_members majorFaults temp _ n _ y eq_refl H) as (I & Z0).
    split; [exact I | apply Z.eqb_neq; exact Z0].
Qed.

Lemma takeUntil_zero_In {A} (key : A -> Z) (l : list A) (u : A) :
  descending key l ->
  Forall (fun a => 0 <= key a) l ->
  In u l -> key u <> 0 ->
  In u (takeUntil (fun a => key a =? 0) l).
Proof.
  unfold descending. intros D. induction D as [|x r Hs IH Hx]; intros F Hu Hn.
  - destruct Hu.
  - inversion F as [|? ? F0 Fr]; subst. simpl.
    destruct (Z.eqb_spec (key x) 0) as [Z0|Z0].
    + exfalso. destruct Hu as [<-|Hu]; [contradiction|].
      rewrite Forall_forall in Hx, Fr. specialize (Hx u Hu). specialize (Fr u Hu). lia.
    + destruct Hu as [<-|Hu]; [left; reflexivity|].
      right. apply IH; assumption.
Qed.

Lemma zero_ranked_accounts {A} (key : A -> Z) (pad : A) (n : nat) (input : list A)
  (u : A) :
  key pad = 0 ->
  Forall (fun a => 0 <= key a) input ->
  In u input -> key u <> 0 ->
  accounted key u
    (takeUntil (fun a => key a =? 0)
       (fold_left (fun t cur => insertTopN key cur t) input (repeat pad n))).
Proof.
  intros Kp F Hu Hn.
  destruct (rank_fold key input (repeat pad n) (repeat_descending key pad n))
    as (D & _ & M & O).
  set (top := fold_left (fun t cur => insertTopN key cur t) input (repeat pad n)) in *.
  assert (Ft : Forall (fun a => 0 <= key a) top).
  { apply Forall_forall. intros y Hy. destruct (M y Hy) as [H|H].
    - apply repeat_spec in H. subst y. lia.
    - rewrite Forall_forall in F. apply F. exact H. }
  destruct (O u (or_introl Hu)) as [H|H].
  - left. apply takeUntil_zero_In; assumption.
  - right. apply Forall_forall. intros y Hy.
    apply (takeUntil_In key) in Hy. rewrite Forall_forall in H. apply H. exact Hy.
Qed.

(** X4.  The I/O-blocked and major-fault lists hold the largest counts of
    the sample: a UID with a count that is not zero and that is missing
    from the reported list has a count no larger than every entry of that
    list. *)
Theorem process_lists_hold_the_largest (mapping : list (Z * string)) (n : nat)
  (processStats : list ProcessStats) (u : UidProcessStats) :
  let stats := getUidProcessStats processStats in
  let scan := processScan mapping n stats in
  In u (map snd stats) ->
  (ioBlockedTasksCnt u <> 0 -> accounted ioBlockedTasksCnt u (reportedIoBlocked scan)) /\
  (majorFaults u <> 0 -> accounted majorFaults u (reportedMajorFaults scan)).
Proof.
  intros stats scan Hu. subst scan.
  unfold reportedIoBlocked, reportedMajorFaults, processScan.
  destruct (processScan_lists mapping stats
              (mkProcessScan [] 0 (repeat temp n) (repeat temp n)))
    as (-> & ->).
  cbn [ps_topNIoBlockedUids ps_topNMajorFaults].
  pose proof (addProcessStats_range processStats [] (Forall_nil _)) as R.
  fold (getUidProcessStats processStats) in R. fold stats in R.
  split; intros Hn.
  - apply zero_ranked_accounts; auto.
    apply Forall_forall. intros a Ha. apply in_map_iff in Ha.
    destruct Ha as (kv & <- & Hkv). rewrite Forall_forall in R. apply (R kv Hkv).
  - apply zero_ranked_accounts; auto.
    apply Forall_forall. intros a Ha. apply in_map_iff in Ha.
    destruct Ha as (kv & <- & Hkv). rewrite Forall_forall in R. apply (R kv Hkv).
Qed.

Lemma process_lists_hold_the_largest_witness :
  let stats := getUidProcessStats sampleProcessStats in
  let scan := processScan [] 1 stats in
  let u := mkUidProcessStats 10007 1 1 9 in
  (ioBlockedTasksCnt u <> 0 -> accounted ioBlockedTasksCnt u (reportedIoBlocked scan)) /\
  (majorFaults u <> 0 -> accounted majorFaults u (reportedMajorFaults scan)).
Proof.
  apply (process_lists_hold_the_largest [] 1 sampleProcessStats
           (mkUidProcessStats 10007 1 1 9)).
  vm_compute. right. left. reflexivity.
Defined.

(** X8.  A successful read of the process statistics reports as
    [totalMajorFaults] the major faults of all processes with a
    non-negative uid, summed modulo 2^64, keeps that total as the baseline
    of the next pass, and reports the change against the previous
    baseline. *)
Theorem total_major_faults_is_sum (s : State) (processStats : list ProcessStats) :
  enabled (mProcPidStat s) = true ->
  answers (mProcPidStat s) (reads (mProcPidStat s)) = Ok processStats ->
  exists data,
    fst (collectProcessIoPerfDataLocked s) = Ok data /\
    totalMajorFaults data = u64 (faultCount processStats) /\
    mLastMajorFaults (snd (collectProcessIoPerfDataLocked s))
    = u64 (faultCount processStats) /\
    majorFaultsPercentChange data
    = percentChange (u64 (faultCount processStats)) (mLastMajorFaults s).
Proof.
  intros En An.
  assert (T : ps_totalMajorFaults
                (processScan (mUidToPackageNameMapping s) (mTopNStatsPerCategory s)
                   (getUidProcessStats processStats))
              = u64 (faultCount processStats)).
  { unfold processScan. rewrite processScan_total by (simpl; unfold UINT64_MOD; lia).
    simpl ps_totalMajorFaults. rewrite Z.add_0_l.
    unfold getUidProcessStats. rewrite addProcessStats_faults. reflexivity. }
  unfold collectProcessIoPerfDataLocked, bind, gets, modify, ret, fail, collect, logOnly.
  rewrite En. cbn [negb]. rewrite An. cbn [fst snd].
  eexists. split; [reflexivity|]. cbn [totalMajorFaults majorFaultsPercentChange].
  rewrite T. repeat split.
Qed.

Lemma total_major_faults_is_sum_witness :
  let s := newService disabledCollector disabledCollector
             (mkCollector true (fun _ => Ok sampleProcessStats) 0) 5 in
  exists data,
    fst (collectProcessIoPerfDataLocked s) = Ok data /\
    totalMajorFaults data = u64 (faultCount sampleProcessStats) /\
    mLastMajorFaults (snd (collectProcessIoPerfDataLocked s))
    = u64 (faultCount sampleProcessStats) /\
    majorFaultsPercentChange data
    = percentChange (u64 (faultCount sampleProcessStats)) (mLastMajorFaults s).
Proof.
  intros s.
  apply (total_major_faults_is_sum s sampleProcessStats); reflexivity.
Defined.

Lemma uidScan_total_fold (mapping : list (Z * string)) (usage : list (Z * UidIoUsage))
  (acc : UidScan) :
  (forall m st, 0 <= metrics (us_total acc) m st < UINT64_MOD) ->
  forall m st,
    metrics (us_total (fold_left (uidScanStep mapping) usage acc)) m st
    = u64 (metrics (us_total acc) m st
           + sumOver (fun u => metrics (ios u) m st) usage).
Proof.
  revert acc. induction usage as [|[k u] rest IH]; intros acc R m st; simpl.
  - unfold u64. rewrite Z.add_0_r, Z.mod_small; [reflexivity | apply R].
  - unfold uidScanStep at 2. cbn [snd].
    destruct (isZero (ios u)) eqn:Z0.
    + rewrite (IH acc R). f_equal.
      assert (E : metrics (ios u) m st = 0).
      { unfold isZero in Z0. repeat (apply andb_prop in Z0; destruct Z0 as (Z0 & ?)).
        destruct m, st; simpl; apply Z.eqb_eq; assumption. }
      rewrite E. lia.
    + rewrite IH.
      * cbn [us_total].
        assert (E : metrics (addTotal (us_total acc) (ios u)) m st
                    = u64 (metrics (us_total acc) m st + metrics (ios u) m st))
          by (destruct m, st; reflexivity).
        rewrite E, Z.add_comm, u64_absorb. f_equal. lia.
      * intros m' st'. cbn [us_total]. destruct m', st'; apply u64_range.
Qed.

(** X7.  The totals of a UID I/O sample cover every UID of the sample,
    ranked or not: each total is the sum of the metric over all usages,
    modulo 2^64. *)
Theorem uid_totals_cover_sample (s : State) (usage : list (Z * UidIoUsage)) :
  enabled (mUidIoStats s) = true ->
  answers (mUidIoStats s) (reads (mUidIoStats s)) = Ok usage ->
  exists data,
    fst (collectUidIoPerfDataLocked s) = Ok data /\
    forall m st,
      metrics (total data) m st = u64 (sumOver (fun u => metrics (ios u) m st) usage).
Proof.
  intros En An.
  unfold collectUidIoPerfDataLocked, bind, gets, modify, ret, fail, collect, logOnly.
  rewrite En. cbn [negb]. rewrite An. cbn [fst snd].
  eexists. split; [reflexivity|]. intros m st. cbn [total].
  unfold uidScan. rewrite uidScan_total_fold.
  - cbn [us_total]. f_equal. destruct m, st; reflexivity.
  - intros m' st'. cbn [us_total]. destruct m', st'; simpl; unfold UINT64_MOD; lia.
Qed.

Lemma uid_totals_cover_sample_witness :
  let s := newService (mkCollector true (fun _ => Ok sampleUsage) 0)
             disabledCollector disabledCollector 1 in
  exists data,
    fst (collectUidIoPerfDataLocked s) = Ok data /\
    forall m st,
      metrics (total data) m st
      = u64 (sumOver (fun u => metrics (ios u) m st) sampleUsage).
Proof.
  intros s. apply (uid_totals_cover_sample s sampleUsage); reflexivity.
Defined.


(** ** The state machine *)

Lemma reschedule_frame (e : CollectionEvent) (p : InfoPtr) (s : State) :
  (forall q, q <> p -> deref q (reschedule e p s) = deref q s) /\
  records (deref p (reschedule e p s)) = records (deref p s) /\
  maxCacheSize (deref p (reschedule e p s)) = maxCacheSize (deref p s) /\
  interval (deref p (reschedule e p s)) = interval (deref p s) /\
  mCurrCollectionEvent (reschedule e p s) = mCurrCollectionEvent s /\
  readCounts (reschedule e p s) = readCounts s.
Proof.
  split; [intros q Hq; destruct p, q; try reflexivity; contradiction Hq; reflexivity|].
  destruct p; repeat split.
Qed.

(** The four ways a tick can end: dropped, rejected before the pass,
    failed in the pass, or collected and rescheduled. *)
Lemma tick_outcome (K : Constants) (e : CollectionEvent) (p : InfoPtr) (s : State) :
  collectionOf e = Some p ->
  let s1 := snd (collectLocked p s) in
  let s' := handleMessage K (Collect e) s in
  (mCurrCollectionEvent s <> e /\ s' = s) \/
  (mCurrCollectionEvent s = e /\ s' = terminateFromHandler s) \/
  (mCurrCollectionEvent s = e /\ isOk (fst (collectLocked p s)) = false /\
   s' = terminateFromHandler s1) \/
  (mCurrCollectionEvent s = e /\ isOk (fst (collectLocked p s)) = true /\
   s' = reschedule e p s1).
Proof.
  intros C s1 s'. subst s1 s'. rewrite (handleMessage_tick K e p s C).
  unfold processCollectionEvent.
  destruct (CollectionEvent_eqb (mCurrCollectionEvent s) e) eqn:M; cbn [negb].
  - apply CollectionEvent_eqb_eq in M.
    destruct (maxCacheSize (deref p s) =? 0); [right; left; split; [exact M | reflexivity]|].
    destruct (interval (deref p s) <? kMinCollectionInterval K);
      [right; left; split; [exact M | reflexivity]|].
    unfold bind, mapErr, modify.
    destruct (collectLocked p s) as [[[]|err] s1]; cbn [fst snd finish isOk].
    + right. right. right. repeat split. exact M.
    + right. right. left. repeat split. exact M.
  - left. split; [|reflexivity]. intros E.
    rewrite E, CollectionEvent_eqb_refl in M. discriminate.
Qed.

Lemma tick_frame (K : Constants) (e : CollectionEvent) (p : InfoPtr) (s : State) :
  collectionOf e = Some p ->
  let s' := handleMessage K (Collect e) s in
  (forall q, q <> p -> deref q s' = deref q s) /\
  (mCurrCollectionEvent s' = mCurrCollectionEvent s \/
   mCurrCollectionEvent s' = TERMINATED) /\
  maxCacheSize (deref p s') = maxCacheSize (deref p s) /\
  interval (deref p s') = interval (deref p s) /\
  (records (deref p s') = records (deref p s) \/
   exists record, records (deref p s') = records (cacheRecord record (deref p s))).
Proof.
  intros C s'. subst s'.
  pose proof (collectLocked_spec p s) as S. cbn zeta in S.
  destruct S as (SM & _ & _ & SO & SR).
  destruct (tick_outcome K e p s C) as [(_ & ->)|[(_ & ->)|[(_ & F & ->)|(_ & F & ->)]]].
  - repeat split; auto.
  - destruct (terminateFromHandler_spec s) as (T & _ & _ & TD).
    rewrite !TD. repeat split; auto.
  - destruct (terminateFromHandler_spec (snd (collectLocked p s))) as (T & _ & _ & TD).
    destruct (fst (collectLocked p s)); [discriminate|]. destruct SR as (_ & SD).
    rewrite !TD, SD. repeat split; auto;
      try (intros q Hq; rewrite TD; apply SO; exact Hq).
  - destruct (reschedule_frame e p (snd (collectLocked p s))) as (RO & RR & RC & RI & RM & _).
    destruct (fst (collectLocked p s)); [|discriminate].
    destruct SR as (_ & _ & record & SD & _).
    rewrite RR, RC, RI, RM, SD. repeat split; auto;
      try (intros q Hq; rewrite RO by exact Hq; apply SO; exact Hq).
    right. exists record. reflexivity.
Qed.

(** X13.  A tick works on the collection of its own event only: the other
    two collections stay exactly as they were, the bound and the interval
    of its own collection are kept, and the mode is either kept or becomes
    [TERMINATED]. *)
Theorem tick_touches_only_its_collection (K : Constants) (e : CollectionEvent)
  (p : InfoPtr) (s : State) :
  collectionOf e = Some p ->
  let s' := handleMessage K (Collect e) s in
  (forall q, q <> p -> deref q s' = deref q s) /\
  (mCurrCollectionEvent s' = mCurrCollectionEvent s \/
   mCurrCollectionEvent s' = TERMINATED) /\
  maxCacheSize (deref p s') = maxCacheSize (deref p s) /\
  interval (deref p s') = interval (deref p s).
Proof.
  intros C. destruct (tick_frame K e p s C) as (A & B & M & I & _).
  repeat split; assumption.
Qed.

Lemma tick_touches_only_its_collection_witness :
  let s' := handleMessage sampleConstants (Collect CUSTOM) sampleCustom in
  (forall q, q <> pCustom -> deref q s' = deref q sampleCustom) /\
  (mCurrCollectionEvent s' = mCurrCollectionEvent sampleCustom \/
   mCurrCollectionEvent s' = TERMINATED) /\
  maxCacheSize (deref pCustom s') = maxCacheSize (deref pCustom sampleCustom) /\
  interval (deref pCustom s') = interval (deref pCustom sampleCustom).
Proof.
  apply (tick_touches_only_its_collection sampleConstants CUSTOM pCustom sampleCustom).
  reflexivity.
Defined.

Lemma handleMessage_terminated (K : Constants) (m : Message) (s : State) :
  mCurrCollectionEvent s = TERMINATED ->
  let s' := handleMessage K m s in
  mCurrCollectionEvent s' = TERMINATED /\
  readCounts s' = readCounts s /\
  (forall q, deref q s' = deref q s).
Proof.
  intros T.
  assert (F : forall r : Result unit,
            let s' := finish (r, s) in
            mCurrCollectionEvent s' = TERMINATED /\ readCounts s' = readCounts s /\
            (forall q, deref q s' = deref q s)).
  { intros [a|err]; cbn [finish].
    - repeat split; auto.
    - destruct (terminateFromHandler_spec s) as (T1 & _ & R1 & D1). repeat split; auto. }
  assert (P : forall e p, e <> TERMINATED ->
                          processCollectionEvent K e p s = (Ok tt, s)).
  { intros e p N. unfold processCollectionEvent. rewrite T.
    rewrite CollectionEvent_eqb_neq by congruence. reflexivity. }
  destruct m as [[]|[]|w]; cbn [handleMessage];
    try rewrite P by discriminate; try apply F.
  unfold endCustomCollectionMessage. rewrite T. repeat split; auto.
Qed.

(** X15.  [TERMINATED] is final for the handler: whatever messages are
    handled after the service has terminated, it stays terminated, no
    collector is read and no cache changes. *)
Theorem terminated_is_final (K : Constants) (messages : list Message) (s : State) :
  mCurrCollectionEvent s = TERMINATED ->
  let s' := handleAll K messages s in
  mCurrCollectionEvent s' = TERMINATED /\
  readCounts s' = readCounts s /\
  (forall q, deref q s' = deref q s).
Proof.
  revert s. unfold handleAll.
  induction messages as [|m rest IH]; intros s T; simpl.
  - repeat split; auto.
  - destruct (handleMessage_terminated K m s T) as (T1 & R1 & D1).
    destruct (IH (handleMessage K m s) T1) as (T2 & R2 & D2).
    repeat split; try congruence; try (intros q; rewrite D2; apply D1).
Qed.

Lemma terminated_is_final_witness :
  let s := terminate samplePeriodic in
  let s' := handleAll sampleConstants
              [Collect PERIODIC; Switch END_CUSTOM_COLLECTION; Other 99; Collect CUSTOM] s in
  mCurrCollectionEvent s' = TERMINATED /\
  readCounts s' = readCounts s /\
  (forall q, deref q s' = deref q s).
Proof.
  intros s.
  apply (terminated_is_final sampleConstants
           [Collect PERIODIC; Switch END_CUSTOM_COLLECTION; Other 99; Collect CUSTOM] s).
  reflexivity.
Defined.

Lemma custom_ticks_frame (K : Constants) (messages : list Message) (s : State) :
  Forall (fun m => m = Collect CUSTOM) messages ->
  mCurrCollectionEvent s = CUSTOM \/ mCurrCollectionEvent s = TERMINATED ->
  let s' := handleAll K messages s in
  (mCurrCollectionEvent s' = CUSTOM \/ mCurrCollectionEvent s' = TERMINATED) /\
  mBoottimeCollection s' = mBoottimeCollection s /\
  mPeriodicCollection s' = mPeriodicCollection s.
Proof.
  intros F. revert s. unfold handleAll.
  induction F as [|m rest -> _ IH]; intros s M; cbn [fold_left].
  - repeat split; auto.
  - destruct (tick_frame K CUSTOM pCustom s eq_refl) as (O & M1 & _).
    assert (M' : mCurrCollectionEvent (handleMessage K (Collect CUSTOM) s) = CUSTOM \/
                 mCurrCollectionEvent (handleMessage K (Collect CUSTOM) s) = TERMINATED).
    { destruct M1 as [E|E]; [rewrite E; exact M | right; exact E]. }
    destruct (IH _ M') as (M2 & B2 & P2).
    split; [exact M2|]. split.
    + refine (eq_trans B2 (O pBoottime _)). discriminate.
    + refine (eq_trans P2 (O pPeriodic _)). discriminate.
Qed.

(** X16.  A custom collection session leaves the boot-time and periodic data
    alone: after a successful [startCustomCollection], any number of
    custom ticks and the [END_CUSTOM_COLLECTION] message, the boot-time
    collection is unchanged and the periodic collection holds the records
    it held before; the service is back in [PERIODIC] with an empty custom
    collection, unless a tick failed and terminated it. *)
Theorem custom_session_leaves_periodic_data (K : Constants) (interval maxDuration : Z)
  (ticks : list Message) (s s1 : State) :
  startCustomCollection K interval maxDuration s = (Ok tt, s1) ->
  Forall (fun m => m = Collect CUSTOM) ticks ->
  let s3 := handleMessage K (Switch END_CUSTOM_COLLECTION) (handleAll K ticks s1) in
  mBoottimeCollection s3 = mBoottimeCollection s /\
  records (mPeriodicCollection s3) = records (mPeriodicCollection s) /\
  maxCacheSize (mPeriodicCollection s3) = maxCacheSize (mPeriodicCollection s) /\
  ((mCurrCollectionEvent s3 = PERIODIC /\ mCustomCollection s3 = emptyCollectionInfo) \/
   mCurrCollectionEvent s3 = TERMINATED).
Proof.
  intros St F.
  assert (S1 : mCurrCollectionEvent s1 = CUSTOM /\
               mBoottimeCollection s1 = mBoottimeCollection s /\
               mPeriodicCollection s1 = mPeriodicCollection s).
  { unfold startCustomCollection in St.
    destruct ((interval <? kMinCollectionInterval K) ||
              (maxDuration <? kMinCollectionInterval K)); [discriminate|].
    destruct (negb (CollectionEvent_eqb (mCurrCollectionEvent s) PERIODIC));
      [discriminate|].
    injection St as <-. repeat split. }
  destruct S1 as (M1 & B1 & P1).
  destruct (custom_ticks_frame K ticks s1 F (or_introl M1)) as (M2 & B2 & P2).
  cbn [handleMessage]. unfold endCustomCollectionMessage.
  destruct M2 as [M2|M2]; rewrite M2; cbn.
  - rewrite B2, B1, P2, P1. repeat split. left. split; reflexivity.
  - rewrite B2, B1, P2, P1. repeat split. right. exact M2.
Qed.

Lemma custom_session_leaves_periodic_data_witness :
  let s1 := sampleCustom in
  let ticks := [Collect CUSTOM; Collect CUSTOM] in
  let s3 := handleMessage sampleConstants (Switch END_CUSTOM_COLLECTION)
              (handleAll sampleConstants ticks s1) in
  mBoottimeCollection s3 = mBoottimeCollection samplePeriodic /\
  records (mPeriodicCollection s3) = records (mPeriodicCollection samplePeriodic) /\
  maxCacheSize (mPeriodicCollection s3) = maxCacheSize (mPeriodicCollection samplePeriodic) /\
  ((mCurrCollectionEvent s3 = PERIODIC /\ mCustomCollection s3 = emptyCollectionInfo) \/
   mCurrCollectionEvent s3 = TERMINATED).
Proof.
  apply (custom_session_leaves_periodic_data sampleConstants 2000000000 60000000000
           [Collect CUSTOM; Collect CUSTOM] samplePeriodic sampleCustom).
  - reflexivity.
  - repeat constructor.
Defined.

(** ** The cache bound as an invariant of the service *)






(** ** Which collectors a pass reads *)

Lemma collectSystemIoPerfDataLocked_collectors (s : State) :
  let s' := snd (collectSystemIoPerfDataLocked s) in
  mProcStat s' = afterRead (mProcStat s) /\
  mProcPidStat s' = mProcPidStat s /\ mUidIoStats s' = mUidIoStats s.
Proof.
  unfold collectSystemIoPerfDataLocked, bind, gets, modify, ret, fail, collect, afterRead.
  simpl. destruct (enabled (mProcStat s)) eqn:E; simpl; [|repeat split].
  destruct (answers (mProcStat s) (reads (mProcStat s))); simpl; rewrite ?E; repeat split.
Qed.

Lemma collectProcessIoPerfDataLocked_collectors (s : State) :
  let s' := snd (collectProcessIoPerfDataLocked s) in
  mProcPidStat s' = afterRead (mProcPidStat s) /\
  mProcStat s' = mProcStat s /\ mUidIoStats s' = mUidIoStats s.
Proof.
  unfold collectProcessIoPerfDataLocked, bind, gets, modify, ret, fail, collect, logOnly,
    afterRead.
  simpl. destruct (enabled (mProcPidStat s)) eqn:E; simpl; [|repeat split].
  destruct (answers (mProcPidStat s) (reads (mProcPidStat s))); simpl;
    [|rewrite ?E; repeat split].
  match goal with
  | |- context [updateUidToPackageNameMapping ?u ?t] =>
      destruct (updateUidToPackageNameMapping_frame u t) as (_ & F1 & F2 & F3)
  end.
  rewrite F1, F2, F3. simpl. repeat split.
Qed.

Lemma collectUidIoPerfDataLocked_collectors (s : State) :
  let s' := snd (collectUidIoPerfDataLocked s) in
  mUidIoStats s' = afterRead (mUidIoStats s) /\
  mProcStat s' = mProcStat s /\ mProcPidStat s' = mProcPidStat s.
Proof.
  unfold collectUidIoPerfDataLocked, bind, gets, modify, ret, fail, collect, logOnly,
    afterRead.
  simpl. destruct (enabled (mUidIoStats s)) eqn:E; simpl; [|repeat split].
  destruct (answers (mUidIoStats s) (reads (mUidIoStats s))); simpl;
    [|rewrite ?E; repeat split].
  match goal with
  | |- context [updateUidToPackageNameMapping ?u ?t] =>
      destruct (updateUidToPackageNameMapping_frame u t) as (_ & F1 & F2 & F3)
  end.
  rewrite F1, F2, F3. simpl. repeat split.
Qed.

Lemma assign_collectors (p : InfoPtr) (c : CollectionInfo) (s : State) :
  mProcStat (assign p c s) = mProcStat s /\
  mProcPidStat (assign p c s) = mProcPidStat s /\
  mUidIoStats (assign p c s) = mUidIoStats s.
Proof. destruct p; repeat split. Qed.

(** X12.  A collection pass reads the collectors in the order process
    statistics of the system, per-process statistics, UID I/O statistics;
    it reads an enabled collector once, never reads a disabled one, and
    stops reading at the first failure.  With no collector enabled nothing
    is read. *)
Theorem pass_reads_each_collector_once (p : InfoPtr) (s : State) :
  let s' := snd (collectLocked p s) in
  (noCollectorEnabled s = true ->
   mProcStat s' = mProcStat s /\ mProcPidStat s' = mProcPidStat s /\
   mUidIoStats s' = mUidIoStats s) /\
  (noCollectorEnabled s = false ->
   mProcStat s' = afterRead (mProcStat s) /\
   mProcPidStat s' = (if sourceFails (mProcStat s) then mProcPidStat s
                      else afterRead (mProcPidStat s)) /\
   mUidIoStats s' = (if sourceFails (mProcStat s) || sourceFails (mProcPidStat s)
                     then mUidIoStats s else afterRead (mUidIoStats s))).
Proof.
  cbn zeta. split; intros N.
  - rewrite (collectLocked_no_collector p s N). repeat split.
  - unfold collectLocked, bind, gets, modify, fail. simpl. rewrite N.
    pose proof (collectSystemIoPerfDataLocked_collectors s) as C1.
    pose proof (collectSystemIoPerfDataLocked_result s) as R1.
    destruct (collectSystemIoPerfDataLocked s) as [r1 s1]. simpl in C1, R1.
    destruct C1 as (A1 & B1 & U1).
    destruct (sourceFails (mProcStat s)).
    { destruct R1 as (e & ->). simpl. repeat split; assumption. }
    destruct R1 as (d1 & -> & _).
    pose proof (collectProcessIoPerfDataLocked_collectors s1) as C2.
    pose proof (collectProcessIoPerfDataLocked_result s1) as R2.
    destruct (collectProcessIoPerfDataLocked s1) as [r2 s2]. simpl in C2, R2.
    destruct C2 as (B2 & A2 & U2). rewrite B1 in R2, B2.
    destruct (sourceFails (mProcPidStat s)).
    { destruct R2 as (e & ->). simpl. repeat split; congruence. }
    destruct R2 as (d2 & -> & _).
    pose proof (collectUidIoPerfDataLocked_collectors s2) as C3.
    pose proof (collectUidIoPerfDataLocked_result s2) as R3.
    destruct (collectUidIoPerfDataLocked s2) as [r3 s3]. simpl in C3, R3.
    destruct C3 as (U3 & A3 & B3). rewrite U2, U1 in R3, U3.
    destruct (sourceFails (mUidIoStats s)).
    { destruct R3 as (e & ->). simpl. repeat split; congruence. }
    destruct R3 as (d3 & -> & _). simpl.
    match goal with
    | |- context [assign p ?c s3] => destruct (assign_collectors p c s3) as (G1 & G2 & G3)
    end.
    rewrite G1, G2, G3. repeat split; congruence.
Qed.

Lemma pass_reads_each_collector_once_witness :
  let s := sampleReadFailure in
  let s' := snd (collectLocked pBoottime s) in
  mProcStat s' = afterRead (mProcStat s) /\
  mProcPidStat s' = (if sourceFails (mProcStat s) then mProcPidStat s
                     else afterRead (mProcPidStat s)) /\
  mUidIoStats s' = (if sourceFails (mProcStat s) || sourceFails (mProcPidStat s)
                    then mUidIoStats s else afterRead (mUidIoStats s)).
Proof.
  apply (proj2 (pass_reads_each_collector_once pBoottime sampleReadFailure)).
  reflexivity.
Defined.

(** ** Name resolution *)

Lemma u32_i32 (u : Z) : 0 <= u < UINT32_MOD -> u32 (i32 u) = u.
Proof.
  intros R. unfold u32, i32, UINT32_MOD in *.
  rewrite Zminus_mod_idemp_l.
  replace (u + 2 ^ 31 - 2 ^ 31) with u by lia. apply Z.mod_small. exact R.
Qed.

Lemma splitUid_fold (ns : NameServices) (uids : list Z)
  (acc : list Z * list (Z * string)) :
  let r := fold_left (splitUid ns) uids acc in
  (forall k, ~ In k uids -> mapFind k (snd r) = mapFind k (snd acc)) /\
  (forall k name, k < AID_APP_START -> getpwuid ns k = Some name ->
     In k uids \/ mapFind k (snd acc) = Some name -> mapFind k (snd r) = Some name) /\
  (forall a, In a (fst r) ->
     In a (fst acc) \/ exists u, In u uids /\ AID_APP_START <= u /\ a = i32 u).
Proof.
  revert acc. induction uids as [|u rest IH]; intros acc; simpl.
  - split; [reflexivity|]. split; [|auto]. intros k name _ _ [[]|H]. exact H.
  - destruct (IH (splitUid ns acc u)) as (I1 & I2 & I3).
    assert (Keep : forall k, k <> u ->
                     mapFind k (snd (splitUid ns acc u)) = mapFind k (snd acc)).
    { intros k N. unfold splitUid. destruct (u >=? AID_APP_START); [reflexivity|].
      destruct (getpwuid ns u); [|reflexivity].
      simpl. apply mapFind_mapSet_other. exact N. }
    split; [|split].
    + intros k N. rewrite I1 by tauto. apply Keep. intros ->. apply N. left. reflexivity.
    + intros k name Hk Hg H. apply (I2 k name Hk Hg).
      destruct (Z.eq_dec k u) as [->|N].
      * right. unfold splitUid.
        destruct (Z.geb_spec u AID_APP_START); [lia|].
        rewrite Hg. simpl. apply mapFind_mapSet_same.
      * destruct H as [[E|H]|H]; [congruence | left; exact H |].
        right. rewrite Keep by exact N. exact H.
    + intros a Ha. destruct (I3 a Ha) as [H|(v & Hv & Hge & ->)].
      * unfold splitUid in H. destruct (Z.geb_spec u AID_APP_START).
        -- simpl in H. apply in_app_or in H. destruct H as [H|[<-|[]]]; [left; exact H|].
           right. exists u. repeat split; auto.
        -- destruct (getpwuid ns u); simpl in H; left; exact H.
      * right. exists v. repeat split; auto.
Qed.

Lemma storeNames_other (k : Z) (appUids : list Z) (packageNames : list string)
  (mapping : list (Z * string)) :
  ~ In k (map u32 appUids) ->
  mapFind k (storeNames appUids packageNames mapping) = mapFind k mapping.
Proof.
  revert packageNames mapping.
  induction appUids as [|u us IH]; intros names mapping N; [reflexivity|].
  destruct names as [|name ns]; [reflexivity|]. simpl.
  rewrite IH by (intros H; apply N; right; exact H).
  destruct (String.eqb name EmptyString); [reflexivity|].
  apply mapFind_mapSet_other. intros ->. apply N. left. reflexivity.
Qed.

Lemma updateUidToPackageNameMapping_names (uids : list Z) (s : State) :
  let split := fold_left (splitUid (nameServices s)) uids
                 ([], mUidToPackageNameMapping s) in
  exists packageNames,
    mUidToPackageNameMapping (snd (updateUidToPackageNameMapping uids s)) =
    storeNames (fst split) packageNames (snd split).
Proof.
  unfold updateUidToPackageNameMapping, bind, gets, modify, ret, fail, mapErr,
    retrievePackageManager.
  simpl.
  destruct (fst (fold_left (splitUid (nameServices s)) uids
                   ([], mUidToPackageNameMapping s))) as [|u us];
    simpl; [exists []; reflexivity|].
  destruct (mPackageManager s); simpl;
    destruct (package_native (nameServices s)) as [f|]; simpl;
    try (destruct (f (u :: us)) as [names|]; simpl);
    try (exists names; reflexivity); exists []; reflexivity.
Qed.

(** X11.  Name resolution only touches the UIDs it is asked about: the name
    of every other UID is kept; and a native UID (below [AID_APP_START])
    that [getpwuid] knows is named after the call, whether or not the
    package manager could be reached. *)
Theorem name_resolution_is_local (uids : list Z) (s : State) :
  Forall (fun u => 0 <= u < UINT32_MOD) uids ->
  let mapping' := mUidToPackageNameMapping (snd (updateUidToPackageNameMapping uids s)) in
  (forall k, ~ In k uids -> mapFind k mapping' = mapFind k (mUidToPackageNameMapping s)) /\
  (forall k name, In k uids -> k < AID_APP_START ->
     getpwuid (nameServices s) k = Some name -> mapFind k mapping' = Some name).
Proof.
  intros R mapping'. subst mapping'.
  destruct (updateUidToPackageNameMapping_names uids s) as (names & ->).
  destruct (splitUid_fold (nameServices s) uids ([], mUidToPackageNameMapping s))
    as (S1 & S2 & S3).
  assert (App : forall k, In k (map u32 (fst (fold_left (splitUid (nameServices s)) uids
                                             ([], mUidToPackageNameMapping s)))) ->
                          In k uids /\ AID_APP_START <= k).
  { intros k Hk. apply in_map_iff in Hk. destruct Hk as (a & <- & Ha).
    destruct (S3 a Ha) as [[]|(u & Hu & Hge & ->)].
    rewrite Forall_forall in R. rewrite (u32_i32 u (R u Hu)). split; assumption. }
  split.
  - intros k N. rewrite storeNames_other; [apply S1; exact N|].
    intros H. apply N. apply (App k H).
  - intros k name Hk Hlt Hg. rewrite storeNames_other.
    + apply (S2 k name Hlt Hg). left. exact Hk.
    + intros H. destruct (App k H). lia.
Qed.

Lemma name_resolution_is_local_witness :
  let s := sampleNamedService in
  let mapping' :=
    mUidToPackageNameMapping (snd (updateUidToPackageNameMapping [1000; 10007] s)) in
  (forall k, ~ In k [1000; 10007] ->
     mapFind k mapping' = mapFind k (mUidToPackageNameMapping s)) /\
  (forall k name, In k [1000; 10007] -> k < AID_APP_START ->
     getpwuid (nameServices s) k = Some name -> mapFind k mapping' = Some name).
Proof.
  apply (name_resolution_is_local [1000; 10007] sampleNamedService).
  repeat constructor; vm_compute; congruence.
Defined.

Example name_resolution_sample :
  let r := updateUidToPackageNameMapping [1000; 10007] sampleNamedService in
  isOk (fst r) = false /\
  mUidToPackageNameMapping (snd r) = [(5, "five"%string); (1000, "system"%string)].
Proof. vm_compute. split; reflexivity. Qed.

(** ** Dumps *)

Lemma startCustomCollection_failure (K : Constants) (interval maxDuration : Z)
  (s : State) :
  isOk (fst (startCustomCollection K interval maxDuration s)) = false ->
  snd (startCustomCollection K interval maxDuration s) = s.
Proof.
  unfold startCustomCollection.
  destruct ((interval <? kMinCollectionInterval K) ||
            (maxDuration <? kMinCollectionInterval K)); [reflexivity|].
  destruct (negb (CollectionEvent_eqb (mCurrCollectionEvent s) PERIODIC));
    [reflexivity | discriminate].
Qed.

(** X20.  A dump that fails leaves the service as it was, unless it is the
    dump that ends a custom collection: the plain dump never changes the
    state, and a start request that is rejected (too many arguments, an
    unknown flag, a value that does not parse, a wrong mode or interval)
    or an unknown first argument changes nothing. *)
Theorem dump_failure_leaves_state (K : Constants) (D : DumpConstants)
  (ParseUint : string -> option Z) (fdWritable : bool) (args : list string)
  (s s' : State) (r : Result unit) :
  dump K D ParseUint fdWritable args s = Some (r, s') ->
  match args with
  | [] => True
  | first :: _ => String.eqb first (kStartCustomCollectionFlag D) = true \/
                  String.eqb first (kEndCustomCollectionFlag D) = false
  end ->
  (args = [] \/ isOk r = false) ->
  s' = s.
Proof.
  unfold dump. destruct args as [|first rest].
  - intros H _ _. unfold dumpCollection in H.
    destruct (CollectionEvent_eqb (mCurrCollectionEvent s) TERMINATED && negb fdWritable);
      [congruence|].
    destruct (dumpCollectorsStatusLocked fdWritable s); [|congruence].
    destruct (negb fdWritable); congruence.
  - intros H G [E|F]; [discriminate|].
    destruct (String.eqb first (kStartCustomCollectionFlag D)).
    + destruct (5 <? List.length (first :: rest))%nat; [congruence|].
      destruct (dumpFlags D ParseUint (first :: rest) rest 1
                  (kCustomCollectionInterval D) (kCustomCollectionDuration D))
        as [[[interval maxDuration]|e]|]; [| congruence | discriminate].
      injection H as H. rewrite <- (startCustomCollection_failure K interval maxDuration s).
      * rewrite H. reflexivity.
      * rewrite H. exact F.
    + destruct G as [G|G]; [discriminate|]. rewrite G in H. congruence.
Qed.

Lemma dump_failure_leaves_state_witness :
  snd (startCustomCollection sampleConstants 2000000000 60000000000 sampleBootTime)
  = sampleBootTime.
Proof.
  apply (dump_failure_leaves_state sampleConstants sampleDumpConstants sampleParseUint
           true ["--start_io"; "--interval"; "2"; "--max_duration"; "60"]%string
           sampleBootTime
           (snd (startCustomCollection sampleConstants 2000000000 60000000000
                   sampleBootTime))
           (fst (startCustomCollection sampleConstants 2000000000 60000000000
                   sampleBootTime))).
  - vm_compute. reflexivity.
  - left. reflexivity.
  - right. reflexivity.
Defined.

(** X21.  The arguments of a start request: without flags the defaults are
    used; the interval and maximum duration flags, in either order, give
    their values in seconds, converted to nanoseconds; when a flag is
    repeated the last value counts. *)
Theorem dump_start_arguments (K : Constants) (D : DumpConstants)
  (ParseUint : string -> option Z) (fdWritable : bool) (v w v2 : string) (a b a2 : Z)
  (s : State) :
  String.eqb (kIntervalFlag D) (kMaxDurationFlag D) = false ->
  ParseUint v = Some a -> ParseUint w = Some b -> ParseUint v2 = Some a2 ->
  let start := kStartCustomCollectionFlag D in
  let run := dump K D ParseUint fdWritable in
  let ns := fun x => secondsToNanoseconds (i64 x) in
  run [start] s =
    Some (startCustomCollection K (kCustomCollectionInterval D)
            (kCustomCollectionDuration D) s) /\
  run [start; kIntervalFlag D; v] s =
    Some (startCustomCollection K (ns a) (kCustomCollectionDuration D) s) /\
  run [start; kMaxDurationFlag D; w] s =
    Some (startCustomCollection K (kCustomCollectionInterval D) (ns b) s) /\
  run [start; kIntervalFlag D; v; kMaxDurationFlag D; w] s =
    Some (startCustomCollection K (ns a) (ns b) s) /\
  run [start; kMaxDurationFlag D; w; kIntervalFlag D; v] s =
    Some (startCustomCollection K (ns a) (ns b) s) /\
  run [start; kIntervalFlag D; v; kIntervalFlag D; v2] s =
    Some (startCustomCollection K (ns a2) (kCustomCollectionDuration D) s).
Proof.
  intros N Pv Pw Pv2. cbn zeta.
  assert (N' : String.eqb (kMaxDurationFlag D) (kIntervalFlag D) = false)
    by (rewrite String.eqb_sym; exact N).
  unfold dump, dumpFlags, parseSecondsFlag. cbn [List.length Nat.ltb Nat.leb Nat.add nth_error].
  rewrite !String.eqb_refl, ?N', ?Pv, ?Pw, ?Pv2.
  repeat split.
Qed.

Lemma dump_start_arguments_witness :
  let start := "--start_io"%string in
  let run := dump sampleConstants sampleDumpConstants sampleParseUint true in
  let ns := fun x => secondsToNanoseconds (i64 x) in
  let s := samplePeriodic in
  run [start] s =
    Some (startCustomCollection sampleConstants 10000000000 1800000000000 s) /\
  run [start; "--interval"; "2"]%string s =
    Some (startCustomCollection sampleConstants (ns 2) 1800000000000 s) /\
  run [start; "--max_duration"; "60"]%string s =
    Some (startCustomCollection sampleConstants 10000000000 (ns 60) s) /\
  run [start; "--interval"; "2"; "--max_duration"; "60"]%string s =
    Some (startCustomCollection sampleConstants (ns 2) (ns 60) s) /\
  run [start; "--max_duration"; "60"; "--interval"; "2"]%string s =
    Some (startCustomCollection sampleConstants (ns 2) (ns 60) s) /\
  run [start; "--interval"; "2"; "--interval"; "60"]%string s =
    Some (startCustomCollection sampleConstants (ns 60) 1800000000000 s).
Proof.
  apply (dump_start_arguments sampleConstants sampleDumpConstants sampleParseUint true
           "2" "60" "60" 2 60 60 samplePeriodic); reflexivity.
Defined.

(** X22.  The bounds test of [parseSecondsFlag] is off by one position: it
    answers "Value not provided" only for a position beyond [args.size()],
    while at [pos = args.size()] it goes on to read [args[pos]], past the
    end of the vector.  [dump] calls it with [pos <= args.size()] only, so
    a start request that ends in a value flag reads out of range instead of
    being rejected. *)
Theorem value_flag_without_value (K : Constants) (D : DumpConstants)
  (ParseUint : string -> option Z) (fdWritable : bool) (args : list string)
  (s : State) :
  (forall pos, (List.length args < pos)%nat ->
     parseSecondsFlag ParseUint args pos
     = Some (Err (error NO_CODE "Value not provided"))) /\
  parseSecondsFlag ParseUint args (List.length args) = None /\
  (forall pos, (pos < List.length args)%nat ->
     exists strValue,
       nth_error args pos = Some strValue /\
       parseSecondsFlag ParseUint args pos =
       match ParseUint strValue with
       | None => Some (Err (error NO_CODE "Invalid value, must be an integer"))
       | Some value => Some (Ok (i64 value))
       end) /\
  dump K D ParseUint fdWritable
    [kStartCustomCollectionFlag D; kIntervalFlag D] s = None /\
  dump K D ParseUint fdWritable
    [kStartCustomCollectionFlag D; kMaxDurationFlag D] s = None.
Proof.
  unfold parseSecondsFlag. split; [|split; [|split; [|split]]].
  - intros pos H. apply Nat.ltb_lt in H. rewrite H. reflexivity.
  - rewrite Nat.ltb_irrefl.
    assert (E : nth_error args (List.length args) = None)
      by (apply nth_error_None; lia).
    rewrite E. reflexivity.
  - intros pos H.
    destruct (nth_error args pos) as [strValue|] eqn:E.
    + exists strValue. split; [reflexivity|].
      destruct (Nat.ltb_spec (List.length args) pos); [lia | reflexivity].
    + apply nth_error_None in E. lia.
  - unfold dump, dumpFlags, parseSecondsFlag. simpl.
    rewrite !String.eqb_refl. reflexivity.
  - unfold dump, dumpFlags, parseSecondsFlag. simpl.
    rewrite !String.eqb_refl.
    destruct (String.eqb (kMaxDurationFlag D) (kIntervalFlag D)); reflexivity.
Qed.

Lemma value_flag_without_value_witness :
  parseSecondsFlag sampleParseUint ["--start_io"; "--interval"]%string 3
  = Some (Err (error NO_CODE "Value not provided")).
Proof.
  apply (proj1 (value_flag_without_value sampleConstants sampleDumpConstants
                  sampleParseUint true ["--start_io"; "--interval"]%string
                  samplePeriodic)).
  simpl. lia.
Defined.

(** X19.  [endCustomCollection] ends the custom collection before it writes
    the report: called in [CUSTOM] mode it succeeds exactly when the writes
    succeed, but in either case the pending messages are replaced by the
    [END_CUSTOM_COLLECTION] message, and handling that message returns the
    service to [PERIODIC] with an empty custom collection. *)
Theorem endCustomCollection_ends_before_writing (K : Constants) (s : State) :
  mCurrCollectionEvent s = CUSTOM ->
  (forall fdWritable, isOk (fst (endCustomCollection fdWritable s)) = fdWritable) /\
  snd (endCustomCollection false s) = snd (endCustomCollection true s) /\
  (forall fdWritable,
     let s2 := handleAll K (map snd (queue (mHandlerLooper
                                             (snd (endCustomCollection fdWritable s)))))
                 (snd (endCustomCollection fdWritable s)) in
     mCurrCollectionEvent s2 = PERIODIC /\
     mCustomCollection s2 = emptyCollectionInfo /\
     queue (mHandlerLooper s2) = [(now (mHandlerLooper s), Collect PERIODIC)]).
Proof.
  intros M. unfold endCustomCollection. rewrite M. cbn [CollectionEvent_eqb negb].
  cbn zeta. unfold dumpCollectorsStatusLocked. simpl.
  split; [|split].
  - intros []; simpl.
    + rewrite !andb_false_r. reflexivity.
    + rewrite !andb_true_r.
      destruct (enabled (mUidIoStats s)), (enabled (mProcStat s)),
        (enabled (mProcPidStat s)); reflexivity.
  - rewrite !andb_false_r, !andb_true_r.
    destruct (enabled (mUidIoStats s)), (enabled (mProcStat s)),
      (enabled (mProcPidStat s)); reflexivity.
  - intros fd.
    assert (E : forall r : Result unit * State,
              snd r = snd (Ok tt, set_mHandlerLooper
                                   (sendMessage (Switch END_CUSTOM_COLLECTION)
                                      (removeMessages (mHandlerLooper s))) s) ->
              let s2 := handleAll K (map snd (queue (mHandlerLooper (snd r)))) (snd r) in
              mCurrCollectionEvent s2 = PERIODIC /\
              mCustomCollection s2 = emptyCollectionInfo /\
              queue (mHandlerLooper s2) = [(now (mHandlerLooper s), Collect PERIODIC)]).
    { intros r ->. simpl. unfold endCustomCollectionMessage. simpl. rewrite M.
      repeat split. }
    apply E.
    destruct fd; simpl; rewrite ?andb_false_r, ?andb_true_r;
      destruct (enabled (mUidIoStats s)), (enabled (mProcStat s)),
        (enabled (mProcPidStat s)); reflexivity.
Qed.

Lemma endCustomCollection_ends_before_writing_witness :
  snd (endCustomCollection false sampleCustom) = snd (endCustomCollection true sampleCustom).
Proof.
  assert (M : mCurrCollectionEvent sampleCustom = CUSTOM) by reflexivity.
  apply (proj1 (proj2 (endCustomCollection_ends_before_writing sampleConstants
                         sampleCustom M))).
Defined.


(** ** Conformance to the state machine *)

(** X17.  Every operation moves the mode along the state machine only: the
    mode stays, or goes from [INIT] to [BOOT_TIME], from [BOOT_TIME] to
    [PERIODIC], between [PERIODIC] and [CUSTOM], or to [TERMINATED]. *)
Theorem mode_follows_state_machine (K : Constants) (s : State) :
  let ok := fun s' => modeStep (mCurrCollectionEvent s) (mCurrCollectionEvent s') = true in
  ok (snd (start K s)) /\
  ok (collectionThreadEntry s) /\
  ok (terminate s) /\
  ok (snd (onBootFinished s)) /\
  (forall interval maxDuration, ok (snd (startCustomCollection K interval maxDuration s))) /\
  (forall fdWritable, ok (snd (endCustomCollection fdWritable s))) /\
  (forall m, ok (handleMessage K m s)).
Proof.
  cbn zeta.
  assert (Same : forall a, modeStep a a = true)
    by (intros a; unfold modeStep; rewrite CollectionEvent_eqb_refl; reflexivity).
  assert (Term : forall a, modeStep a TERMINATED = true) by (intros []; reflexivity).
  split; [|split; [|split; [|split; [|split; [|split]]]]].
  - unfold start.
    destruct (negb (CollectionEvent_eqb (mCurrCollectionEvent s) INIT)
              || mCollectionThreadJoinable s); apply Same.
  - unfold collectionThreadEntry. destruct (mCurrCollectionEvent s) eqn:M;
      rewrite ?M; try apply Same. reflexivity.
  - unfold terminate. destruct (mCurrCollectionEvent s) eqn:M; rewrite ?M;
      try apply Same; cbn zeta; destruct (mCollectionThreadJoinable _); reflexivity.
  - unfold onBootFinished.
    destruct (mCurrCollectionEvent s) eqn:M; simpl; rewrite ?M; reflexivity.
  - intros interval maxDuration. unfold startCustomCollection.
    destruct ((interval <? kMinCollectionInterval K) ||
              (maxDuration <? kMinCollectionInterval K)); [apply Same|].
    destruct (mCurrCollectionEvent s) eqn:M; simpl; rewrite ?M; reflexivity.
  - intros fdWritable. unfold endCustomCollection.
    destruct (negb (CollectionEvent_eqb (mCurrCollectionEvent s) CUSTOM)); [apply Same|].
    cbn zeta.
    destruct (dumpCollectorsStatusLocked fdWritable _);
      [destruct (negb fdWritable)|]; apply Same.
  - assert (T : forall e p, collectionOf e = Some p ->
                  modeStep (mCurrCollectionEvent s)
                    (mCurrCollectionEvent (handleMessage K (Collect e) s)) = true).
    { intros e p C. destruct (tick_frame K e p s C) as (_ & [->| ->] & _);
        [apply Same | apply Term]. }
    intros [[]|[]|w]; try apply Term.
    + apply (T BOOT_TIME pBoottime eq_refl).
    + apply (T PERIODIC pPeriodic eq_refl).
    + apply (T CUSTOM pCustom eq_refl).
    + cbn [handleMessage]. unfold endCustomCollectionMessage.
      destruct (mCurrCollectionEvent s) eqn:M; rewrite ?M; try apply Same. reflexivity.
Qed.





(** ** The ranked lists written by the collection functions *)

Lemma descending_app_tail {A} (key : A -> Z) (pre l : list A) :
  descending key (pre ++ l) -> descending key l.
Proof.
  unfold descending. induction pre as [|x r IH]; simpl; [auto|].
  intros H. inversion H; subst. apply IH. assumption.
Qed.

(** X1.  One step of the ranking scan on a descending list: a candidate
    that ranks at least as high as some member enters behind the members
    that rank strictly higher, the member that leaves is the last one, a
    minimum of the list, and the others keep their order; a candidate that
    ranks below every member changes nothing.  The length never changes. *)
Theorem insertion_displaces_the_minimum {A} (key : A -> Z) (cur : A) (l : list A) :
  descending key l ->
  List.length (insertTopN key cur l) = List.length l /\
  descending key (insertTopN key cur l) /\
  (Exists (fun x => key x <= key cur) l ->
   exists pre post,
     removelast l = pre ++ post /\
     insertTopN key cur l = pre ++ cur :: post /\
     Forall (fun x => key cur < key x) pre /\
     Forall (fun x => key x <= key cur) post /\
     Forall (fun y => key (last l cur) <= key y) l) /\
  (Forall (fun x => key cur < key x) l -> insertTopN key cur l = l).
Proof.
  intros D. split; [apply insertTopN_length|].
  split; [apply insertTopN_descending; exact D|].
  split; [|apply insertTopN_rejects].
  intros E. destruct (insertTopN_displaces_last key cur l E) as (pre & post & R & I & F).
  exists pre, post. repeat split; auto.
  - pose proof (insertTopN_descending key cur l D) as D'. rewrite I in D'.
    apply descending_app_tail in D'. unfold descending in D'.
    inversion D'; subst. assumption.
  - apply descending_last_min. exact D.
Qed.

Lemma insertion_displaces_the_minimum_witness :
  List.length (insertTopN (fun z : Z => z) 7 [9; 5; 2]) = List.length [9; 5; 2] /\
  descending (fun z : Z => z) (insertTopN (fun z : Z => z) 7 [9; 5; 2]) /\
  (Exists (fun x => x <= 7) [9; 5; 2] ->
   exists pre post,
     removelast [9; 5; 2] = pre ++ post /\
     insertTopN (fun z : Z => z) 7 [9; 5; 2] = pre ++ 7 :: post /\
     Forall (fun x => 7 < x) pre /\
     Forall (fun x => x <= 7) post /\
     Forall (fun y => last [9; 5; 2] 7 <= y) [9; 5; 2]) /\
  (Forall (fun x => 7 < x) [9; 5; 2] ->
   insertTopN (fun z : Z => z) 7 [9; 5; 2] = [9; 5; 2]).
Proof.
  apply (insertion_displaces_the_minimum (fun z : Z => z) 7 [9; 5; 2]).
  repeat constructor; simpl; lia.
Defined.

(** X2.  The lists of a successful collection: the read and write lists
    are in descending order of their bytes and hold at most
    [mTopNStatsPerCategory] entries; the I/O-blocked and major-fault lists
    are in descending order of their count, hold at most as many entries,
    and none with count zero; and the list of total task counts has one
    entry per I/O-blocked UID. *)
Theorem collected_lists_are_ranked :
  (forall s s' data,
     collectUidIoPerfDataLocked s = (Ok data, s') ->
     descending ioStatKey (topNReads data) /\
     descending ioStatKey (topNWrites data) /\
     (List.length (topNReads data) <= mTopNStatsPerCategory s)%nat /\
     (List.length (topNWrites data) <= mTopNStatsPerCategory s)%nat) /\
  (forall s s' data,
     collectProcessIoPerfDataLocked s = (Ok data, s') ->
     descending count (topNIoBlockedUids data) /\
     descending count (topNMajorFaults data) /\
     (List.length (topNIoBlockedUids data) <= mTopNStatsPerCategory s)%nat /\
     (List.length (topNMajorFaults data) <= mTopNStatsPerCategory s)%nat /\
     Forall (fun e => count e <> 0) (topNIoBlockedUids data) /\
     Forall (fun e => count e <> 0) (topNMajorFaults data) /\
     List.length (topNIoBlockedUidsTotalTaskCnt data)
     = List.length (topNIoBlockedUids data)).
Proof.
  assert (E : forall B (key : B -> Z), descending key []) by (intros; constructor).
  split; intros s s' data H.
  - destruct (collectUidIoPerfDataLocked_lists _ _ _ H)
      as [->|(usage & names & _ & _ & ->)]; simpl.
    + repeat split; auto; lia.
    + destruct (reported_lists_ordered_bounded (mUidToPackageNameMapping s) names
                  (mTopNStatsPerCategory s) usage [])
        as ((R1 & R2 & _) & (W1 & W2 & _) & _).
      repeat split; assumption.
  - assert (L : List.length (topNIoBlockedUidsTotalTaskCnt data)
                = List.length (topNIoBlockedUids data)).
    { revert H.
      unfold collectProcessIoPerfDataLocked, bind, gets, modify, ret, fail, collect,
        logOnly.
      destruct (enabled (mProcPidStat s)); simpl.
      - destruct (answers (mProcPidStat s) (reads (mProcPidStat s))); simpl;
          [|discriminate].
        intros H. injection H as <- _. simpl. rewrite !length_map. reflexivity.
      - intros H. injection H as <- _. reflexivity. }
    destruct (collectProcessIoPerfDataLocked_lists _ _ _ H)
      as [->|(stats & names & _ & _ & Eb & Ef)].
    + simpl. repeat split; auto; lia.
    + rewrite L, Eb, Ef.
      destruct (reported_lists_ordered_bounded (mUidToPackageNameMapping s) names
                  (mTopNStatsPerCategory s) [] (getUidProcessStats stats))
        as (_ & _ & (B1 & B2 & B3) & (F1 & F2 & F3)).
      repeat split; assumption.
Qed.

Lemma collected_lists_are_ranked_witness :
  let s := newService (mkCollector true (fun _ => Ok sampleUsage) 0)
             disabledCollector disabledCollector 2 in
  let data := mkUidIoPerfData (mkIoUsage 130 5 120 0 2 1)
                [mkUidIoStat 0 "7" (100, 0) (0, 0); mkUidIoStat 0 "10" (30, 5) (2, 1)]
                [mkUidIoStat 0 "10" (70, 0) (2, 1); mkUidIoStat 0 "8" (50, 0) (0, 0)] in
  descending ioStatKey (topNReads data) /\
  descending ioStatKey (topNWrites data) /\
  (List.length (topNReads data) <= mTopNStatsPerCategory s)%nat /\
  (List.length (topNWrites data) <= mTopNStatsPerCategory s)%nat.
Proof.
  intros s data.
  apply (proj1 collected_lists_are_ranked s (snd (collectUidIoPerfDataLocked s)) data).
  vm_compute. reflexivity.
Defined.
